(** * Playback sequencer of the music player (src/App.tsx)

    A shallow embedding of the queue / shuffle / history logic held by the
    [App] component, and the properties of its handlers.  Every handler reads
    the component state of the current render and issues state updates; it is
    modelled as a function from the state before the event to the state after
    the re-render. *)

From Stdlib Require Import ZArith QArith Qround Ascii.
From stdpp Require Import base list strings gmap.

Close Scope Q_scope.
Open Scope Z_scope.

(** ** JavaScript array primitives used by the handlers *)

Section arrays.
Context {A : Type}.

(** [Array.prototype.findIndex]: first index satisfying [p], or [-1]. *)
Fixpoint findIndex_from (p : A → bool) (l : list A) (i : Z) : Z :=
  match l with
  | [] => -1
  | x :: t => if p x then i else findIndex_from p t (i + 1)
  end.

Definition findIndex (p : A → bool) (l : list A) : Z := findIndex_from p l 0.

(** [arr[i]] for a numeric index: [undefined] outside the array. *)
Definition at_index (l : list A) (i : Z) : option A :=
  if i <? 0 then None else l !! Z.to_nat i.

(** [arr.slice(start)]; a negative [start] counts from the end. *)
Definition slice_from (start : Z) (l : list A) : list A :=
  let len := Z.of_nat (length l) in
  let from := if start <? 0 then Z.max (len + start) 0 else start in
  drop (Z.to_nat from) l.

(** [arr.slice(0, -1)]: everything but the last element. *)
Definition slice_init (l : list A) : list A :=
  take (Z.to_nat (Z.max (Z.of_nat (length l) - 1) 0)) l.

(** [arr.filter((x, i) => p(i, x))], the callback receiving the index. *)
Fixpoint filteri_from (p : Z → A → bool) (i : Z) (l : list A) : list A :=
  match l with
  | [] => []
  | x :: t =>
      if p i x then x :: filteri_from p (i + 1) t
      else filteri_from p (i + 1) t
  end.

Definition filteri (p : Z → A → bool) (l : list A) : list A :=
  filteri_from p 0 l.

(** [[a[i], a[j]] = [a[j], a[i]]]: both reads happen first, then [a[i]] and
    [a[j]] are written in that order.  Both indices are inside the array at
    every call made by the shuffle (see [randomIndex_range]); outside it the
    array is left as it is here. *)
Definition swap (i : nat) (j : Z) (l : list A) : list A :=
  match l !! i, at_index l j with
  | Some a, Some b => <[Z.to_nat j := a]> (<[i := b]> l)
  | _, _ => l
  end.
End arrays.

(** ** Data model *)

(** A track.  The fields are those of the object literals built in
    [handleUpload]; the [file] handle carries no sequencing information and is
    left out. *)
Module Song.
Record t : Type := mk {
  id : string;
  url : string;
  name : string;
  artist : string;
  duration : Q;
  userId : string;
  coverUrl : option string
}.
End Song.
Abbreviation Song := Song.t.

(** The [useState] cells of [App] that take part in sequencing. *)
Record State : Type := mkState {
  library : list Song;
  queue : list Song;
  history : list Song;
  skippedTracks : gset string;
  currentSong : option Song;
  isShuffled : bool;
  isRepeat : bool;
  shuffledQueue : list Song;
  isPlaying : bool;
  currentTime : Q
}.

Definition initialState : State :=
  mkState [] [] [] ∅ None false false [] false 0%Q.

(** The state setters returned by [useState]. *)
Definition setLibrary (v : list Song) (st : State) : State :=
  mkState v (queue st) (history st) (skippedTracks st) (currentSong st)
    (isShuffled st) (isRepeat st) (shuffledQueue st) (isPlaying st) (currentTime st).
Definition setQueue (v : list Song) (st : State) : State :=
  mkState (library st) v (history st) (skippedTracks st) (currentSong st)
    (isShuffled st) (isRepeat st) (shuffledQueue st) (isPlaying st) (currentTime st).
Definition setHistory (v : list Song) (st : State) : State :=
  mkState (library st) (queue st) v (skippedTracks st) (currentSong st)
    (isShuffled st) (isRepeat st) (shuffledQueue st) (isPlaying st) (currentTime st).
Definition setSkippedTracks (v : gset string) (st : State) : State :=
  mkState (library st) (queue st) (history st) v (currentSong st)
    (isShuffled st) (isRepeat st) (shuffledQueue st) (isPlaying st) (currentTime st).
Definition setCurrentSong (v : option Song) (st : State) : State :=
  mkState (library st) (queue st) (history st) (skippedTracks st) v
    (isShuffled st) (isRepeat st) (shuffledQueue st) (isPlaying st) (currentTime st).
Definition setIsShuffled (v : bool) (st : State) : State :=
  mkState (library st) (queue st) (history st) (skippedTracks st) (currentSong st)
    v (isRepeat st) (shuffledQueue st) (isPlaying st) (currentTime st).
Definition setIsRepeat (v : bool) (st : State) : State :=
  mkState (library st) (queue st) (history st) (skippedTracks st) (currentSong st)
    (isShuffled st) v (shuffledQueue st) (isPlaying st) (currentTime st).
Definition setShuffledQueue (v : list Song) (st : State) : State :=
  mkState (library st) (queue st) (history st) (skippedTracks st) (currentSong st)
    (isShuffled st) (isRepeat st) v (isPlaying st) (currentTime st).
Definition setIsPlaying (v : bool) (st : State) : State :=
  mkState (library st) (queue st) (history st) (skippedTracks st) (currentSong st)
    (isShuffled st) (isRepeat st) (shuffledQueue st) v (currentTime st).
Definition setCurrentTime (v : Q) (st : State) : State :=
  mkState (library st) (queue st) (history st) (skippedTracks st) (currentSong st)
    (isShuffled st) (isRepeat st) (shuffledQueue st) (isPlaying st) v.

(** [s => s.id === c.id] and [s => s.id !== c.id] *)
Definition sameId (c s : Song) : bool := bool_decide (Song.id s = Song.id c).
Definition otherId (c s : Song) : bool := negb (sameId c s).

(** [s => !skippedTracks.has(s.id)] *)
Definition unskipped (sk : gset string) (s : Song) : bool :=
  negb (bool_decide (Song.id s ∈ sk)).

(** ** Math.random *)

(** One outcome of [Math.random()]: a number in the half-open unit interval. *)
Record sample : Type := mkSample {
  sample_val : Q;
  sample_range : Qle_bool 0 sample_val && negb (Qle_bool 1 sample_val) = true
}.

(** [Math.floor(Math.random() * (i + 1))] *)
Definition randomIndex (u : sample) (i : nat) : Z :=
  Qfloor (sample_val u * inject_Z (Z.of_nat i + 1)).

(** The Fisher-Yates loop of [toggleShuffle]:
    [for (let i = n - 1; i > 0; i--) { j = ...; swap i j }].
    [rnd k] is the outcome of the [k]-th call of [Math.random] made by the
    loop; the loop variable is the structurally decreasing argument. *)
Fixpoint fisherYates_loop (rnd : nat → sample) (k : nat) (i : nat)
    (tracks : list Song) : list Song :=
  match i with
  | O => tracks
  | S i' =>
      let j := randomIndex (rnd k) i in
      fisherYates_loop rnd (S k) i' (swap i j tracks)
  end.

Definition fisherYates (rnd : nat → sample) (tracks : list Song) : list Song :=
  fisherYates_loop rnd 0 (length tracks - 1)%nat tracks.

(** ** Handlers *)

(** The "remaining library" computed alike by [toggleShuffle] and [getUpNext]. *)
Definition autoQueue (st : State) : list Song :=
  match currentSong st with
  | Some c =>
      if (0 <? Z.of_nat (length (library st))) then
        let idx := findIndex (sameId c) (library st) in
        if negb (idx =? -1) && (idx <? Z.of_nat (length (library st)) - 1)
        then slice_from (idx + 1) (library st)
        else []
      else []
  | None => []
  end.

Definition toggleShuffle (rnd : nat → sample) (st : State) : State :=
  if isShuffled st then
    setShuffledQueue [] (setIsShuffled false st)
  else
    let manualQueue := queue st in
    let tracksToShuffle :=
      manualQueue ++ filter (λ s, unskipped (skippedTracks st) s) (autoQueue st) in
    setIsShuffled true (setShuffledQueue (fisherYates rnd tracksToShuffle) st).

(** The [while] loop of [playNext] that steps over skipped tracks.  [rest] is
    the part of the library from [nextIndex] on; the result is the value of
    [nextIndex] when the loop exits. *)
Fixpoint skipLoop (sk : gset string) (rest : list Song) (nextIndex : Z) : Z :=
  match rest with
  | [] => nextIndex
  | s :: rest' =>
      if bool_decide (Song.id s ∈ sk) then skipLoop sk rest' (nextIndex + 1)
      else nextIndex
  end.

Definition playNext (st : State) : State :=
  if negb (bool_decide (is_Some (currentSong st)))
     && (Z.of_nat (length (library st)) =? 0)
  then st
  else
    (* 1. save the current song to the history *)
    let st1 :=
      match currentSong st with
      | Some c => setHistory (history st ++ [c]) st
      | None => st
      end in
    if isShuffled st then
      (* 2. shuffle mode *)
      match shuffledQueue st with
      | nextSong :: _ =>
          setQueue (filter (λ s, otherId nextSong s) (queue st1))
            (setIsPlaying true
               (setCurrentSong (Some nextSong)
                  (setShuffledQueue (slice_from 1 (shuffledQueue st1)) st1)))
      | [] => setIsPlaying false st1
      end
    else
      (* 3. standard mode *)
      match queue st with
      | nextSong :: _ =>
          setIsPlaying true
            (setCurrentSong (Some nextSong)
               (setQueue (slice_from 1 (queue st1)) st1))
      | [] =>
          if Z.of_nat (length (library st)) =? 0 then setIsPlaying false st1
          else
            let currentIndex :=
              match currentSong st with
              | Some c => findIndex (sameId c) (library st)
              | None => -1
              end in
            let nextIndex :=
              skipLoop (skippedTracks st)
                (slice_from (currentIndex + 1) (library st)) (currentIndex + 1) in
            if nextIndex <? Z.of_nat (length (library st))
            then setIsPlaying true
                   (setCurrentSong (at_index (library st) nextIndex) st1)
            else setIsPlaying false st1
      end.

(** [currentTime > 3] *)
Definition pastRestartThreshold (t : Q) : bool := negb (Qle_bool t 3).

Definition playPrevious (st : State) : State :=
  match currentSong st with
  | None => st
  | Some c =>
      (* 1. restart: only the audio element is touched *)
      if pastRestartThreshold (currentTime st) then st
      else
        (* 2. history *)
        if 0 <? Z.of_nat (length (history st)) then
          let prevSong := at_index (history st) (Z.of_nat (length (history st)) - 1) in
          setIsPlaying true
            (setCurrentSong prevSong (setHistory (slice_init (history st)) st))
        else
          (* 3. library order *)
          if 0 <? Z.of_nat (length (library st)) then
            let currentIndex := findIndex (sameId c) (library st) in
            if 0 <? currentIndex then
              setIsPlaying true
                (setCurrentSong (at_index (library st) (currentIndex - 1)) st)
            else st
          else st
  end.

Definition handleAddToQueue (song : Song) (st : State) : State :=
  let st1 := setQueue (queue st ++ [song]) st in
  if isShuffled st then setShuffledQueue (shuffledQueue st1 ++ [song]) st1
  else st1.

Definition getUpNext (st : State) : list Song :=
  if isShuffled st then shuffledQueue st
  else
    let manualQueue := queue st in
    let filteredAutoQueue :=
      filter (λ s, unskipped (skippedTracks st) s) (autoQueue st) in
    manualQueue ++ filteredAutoQueue.

(** [prev.filter((_, i) => i !== index)] *)
Definition dropIndex (index : Z) (l : list Song) : list Song :=
  filteri (λ i _, negb (i =? index)) l.

Definition handleRemoveFromUpNext (index : Z) (st : State) : State :=
  if isShuffled st then setShuffledQueue (dropIndex index (shuffledQueue st)) st
  else if index <? Z.of_nat (length (queue st)) then
    setQueue (dropIndex index (queue st)) st
  else
    match at_index (getUpNext st) index with
    | Some songToSkip =>
        setSkippedTracks ({[ Song.id songToSkip ]} ∪ skippedTracks st) st
    | None => st
    end.

Definition handlePlayFromLibrary (song : Song) (st : State) : State :=
  let st1 :=
    match currentSong st with
    | Some c => setHistory (history st ++ [c]) st
    | None => st
    end in
  setShuffledQueue []
    (setIsShuffled false
       (setSkippedTracks ∅ (setIsPlaying true (setCurrentSong (Some song) st1)))).

Definition toggleRepeat (st : State) : State := setIsRepeat (negb (isRepeat st)) st.
Definition togglePlay (st : State) : State := setIsPlaying (negb (isPlaying st)) st.

(** [refreshLibrary] once [fetchUserTracks] has answered with [remoteTracks];
    a failed fetch, a guest or a missing backend leaves the state as it is. *)
Definition refreshLibrary (remoteTracks : list Song) (st : State) : State :=
  setLibrary remoteTracks st.

(** The sequencing part of [handleUpload].  The handler is [async]: it reads
    [currentSong] from the render in which the upload was started, awaits the
    metadata and the transfer, and only then issues its updates.  [captured]
    is that earlier reading; [st] is the state when the updates are applied,
    which is what [setLibrary(prev => ...)] sees.  The new track goes to the
    front of the library and is loaded when [captured] is empty. *)
Definition handleUpload (captured : option Song) (song : Song) (st : State)
    : State :=
  let st1 := setLibrary (song :: library st) st in
  match captured with
  | None => setIsPlaying true (setCurrentSong (Some song) st1)
  | Some _ => st1
  end.

(** The reset done by [handleLogout] for a guest and by [syncUserSession]
    when the session ends. *)
Definition clearSession (st : State) : State :=
  setIsPlaying false
    (setCurrentSong None
       (setIsShuffled false
          (setShuffledQueue []
             (setSkippedTracks ∅ (setHistory [] (setQueue [] (setLibrary [] st))))))).

(** [onEnded]: the audio element exists exactly when a song is loaded. *)
Definition handleSongEnd (st : State) : State :=
  if isRepeat st && bool_decide (is_Some (currentSong st)) then st
  else playNext st.

Definition handleAudioError (st : State) : State := playNext st.

Definition onTimeUpdate (t : Q) (st : State) : State := setCurrentTime t st.

(** ** Events *)

Inductive Event : Type :=
| PlayNext
| PlayPrevious
| AddToQueue (song : Song)
| RemoveFromUpNext (index : Z)
| ToggleShuffle (rnd : nat → sample)
| ToggleRepeat
| TogglePlay
| SetPlaying (b : bool)
| PlayFromLibrary (song : Song)
| RefreshLibrary (remoteTracks : list Song)
| Upload (captured : option Song) (song : Song)
| ClearSession
| SongEnd
| AudioError
| TimeUpdate (t : Q).

Definition handle (e : Event) (st : State) : State :=
  match e with
  | PlayNext => playNext st
  | PlayPrevious => playPrevious st
  | AddToQueue s => handleAddToQueue s st
  | RemoveFromUpNext i => handleRemoveFromUpNext i st
  | ToggleShuffle rnd => toggleShuffle rnd st
  | ToggleRepeat => toggleRepeat st
  | TogglePlay => togglePlay st
  | SetPlaying b => setIsPlaying b st
  | PlayFromLibrary s => handlePlayFromLibrary s st
  | RefreshLibrary l => refreshLibrary l st
  | Upload c s => handleUpload c s st
  | ClearSession => clearSession st
  | SongEnd => handleSongEnd st
  | AudioError => handleAudioError st
  | TimeUpdate t => onTimeUpdate t st
  end.

(** States reached from the initial render by events that [allowed] admits. *)
Inductive reachable_via (allowed : State → Event → Prop) : State → Prop :=
| reach_init : reachable_via allowed initialState
| reach_step st e :
    reachable_via allowed st → allowed st e →
    reachable_via allowed (handle e st).

Definition reachable : State → Prop := reachable_via (λ _ _, True).

(** [toggleShuffle] is handed to [FullPlayer] alone, which is rendered under
    [currentSong && isFullPlayerOpen]: the shuffle control exists only while
    a track is loaded.  Every other event is left unrestricted. *)
Definition shuffle_control_rendered (st : State) (e : Event) : Prop :=
  match e with
  | ToggleShuffle _ => is_Some (currentSong st)
  | _ => True
  end.

(** The states the component can be in: those reached through events whose
    control is on screen. *)
Definition ui_reachable : State → Prop := reachable_via shuffle_control_rendered.

(** ** The up-next list in the words of the specification *)

(** The tracks of [l] strictly after the first one satisfying [p]; none when
    no track satisfies [p]. *)
Fixpoint tracksAfter {A : Type} (p : A → bool) (l : list A) : list A :=
  match l with
  | [] => []
  | x :: t => if p x then t else tracksAfter p t
  end.

(** "Library tracks strictly after Current Track". *)
Definition spec_libraryAfterCurrent (st : State) : list Song :=
  match currentSong st with
  | Some c => tracksAfter (sameId c) (library st)
  | None => []
  end.

(** "ManualQueue ++ (Library tracks strictly after Current Track, excluding
    Skipped Set)". *)
Definition spec_orderedUpNext (st : State) : list Song :=
  queue st ++
  filter (λ s, Song.id s ∉ skippedTracks st) (spec_libraryAfterCurrent st).

(** Runs of events used by the history law. *)
Fixpoint playNext_times (n : nat) (st : State) : State :=
  match n with
  | O => st
  | S n' => playNext_times n' (playNext st)
  end.

(** One [playPrevious] per entry of [ts], each pressed when the audio element
    last reported the elapsed time [t]. *)
Fixpoint playPrevious_at (ts : list Q) (st : State) : State :=
  match ts with
  | [] => st
  | t :: ts' => playPrevious_at ts' (playPrevious (onTimeUpdate t st))
  end.

(** Every press in the run happens within the first three seconds and finds a
    non-empty history. *)
Fixpoint previous_run_ok (ts : list Q) (st : State) : Prop :=
  match ts with
  | [] => True
  | t :: ts' =>
      (t <= 3)%Q ∧ history st ≠ [] ∧
      previous_run_ok ts' (playPrevious (onTimeUpdate t st))
  end.

Definition run (es : list Event) (st : State) : State :=
  foldl (λ s e, handle e s) st es.

(** The identifiers of a list of tracks. *)
Definition ids (l : list Song) : list string := Song.id <$> l.

(** A library refresh admitted by the skip invariant: every skipped track is
    still part of the fetched collection.  Other events are unrestricted. *)
Definition refresh_keeps_skipped (st : State) (e : Event) : Prop :=
  match e with
  | RefreshLibrary remoteTracks =>
      ∀ i, i ∈ skippedTracks st → i ∈ ids remoteTracks
  | _ => True
  end.

(** ** Invariants *)

(** The History never outlives the Current Track. *)
Definition history_inv (st : State) : Prop :=
  currentSong st = None → history st = [].

(** Every skipped identifier names a Library track. *)
Definition skipped_inv (st : State) : Prop :=
  ∀ i, i ∈ skippedTracks st → i ∈ ids (library st).

(** ** Sample tracks and states *)

Definition track (i : string) : Song :=
  Song.mk i ("blob:" +:+ i) i "Unknown Artist" 0%Q "guest" None.

Definition trackA : Song := track "A".
Definition trackB : Song := track "B".
Definition trackX : Song := track "X".
Definition trackY : Song := track "Y".
Definition trackZ : Song := track "Z".

Definition half : sample := mkSample (1 # 2) eq_refl.

(** The library held one track, the user queued it, and a refresh then
    returned an empty collection. *)
Definition emptied_library_state : State :=
  run [RefreshLibrary [trackA]; AddToQueue trackA; RefreshLibrary []]
    initialState.

(** X plays from the library [X], A and B are queued, shuffle goes on (the
    draw leaves the order [A, B]). *)
Definition reconcile_scenario : State :=
  handle (ToggleShuffle (λ _, half))
    (handle (AddToQueue trackB)
       (handle (AddToQueue trackA)
          (handle (PlayFromLibrary trackX)
             (handle (RefreshLibrary [trackX]) initialState)))).

(** The removal-by-index scenario: Manual Queue [A], Library [X, Y, Z],
    Current Track X, shuffle off. *)
Definition removal_scenario : State :=
  mkState [trackX; trackY; trackZ] [trackA] [] ∅ (Some trackX)
    false false [] true 0%Q.

(** Manual Queue [A, B], Library [X, Y, Z] with X playing and Y skipped. *)
Definition shuffle_scenario : State :=
  mkState [trackX; trackY; trackZ] [trackA; trackB] [] {[ "Y" ]} (Some trackX)
    false false [] true 0%Q.

(** A second outcome of [Math.random]. *)
Definition tenth : sample := mkSample (1 # 10) eq_refl.

(** Library [X, Y, Z] with X playing: two steps forward reach Z, two steps
    back return to X. *)
Definition lifo_scenario : State :=
  run [RefreshLibrary [trackX; trackY; trackZ]; PlayFromLibrary trackX]
    initialState.

(** X plays from the library [X, Y]; Y is removed from the up-next list; a
    refresh then brings [Y, X, Z]. *)
Definition skip_scenario : State :=
  handle (RemoveFromUpNext 0)
    (handle (PlayFromLibrary trackX)
       (handle (RefreshLibrary [trackX; trackY]) initialState)).

(** X plays from the library [X, Y] and Y is queued, so the up-next list is
    [Y, Y]: the queued entry and the library entry.  The library entry is
    removed (index 1), then a refresh returns [X] alone. *)
Definition stale_skip_state : State :=
  run [RefreshLibrary [trackX; trackY]; PlayFromLibrary trackX;
       AddToQueue trackY; RemoveFromUpNext 1; RefreshLibrary [trackX]]
    initialState.

(** ** The title taken from a file name *)

(** [handleUpload] starts from [file.name.replace(/\.[^/.]+$/, "")].  The
    class [[^/.]] admits every character but the slash and the dot. *)
Definition extChar (c : ascii) : bool :=
  negb (Ascii.eqb c "/"%char) && negb (Ascii.eqb c "."%char).

Fixpoint allExtChars (s : string) : bool :=
  match s with
  | EmptyString => true
  | String c t => extChar c && allExtChars t
  end.

(** The pattern matched at the front of [s]: a dot, then one or more admitted
    characters, then the end of the input. *)
Definition matchesExtension (s : string) : bool :=
  match s with
  | String c (String d t) => Ascii.eqb c "."%char && allExtChars (String d t)
  | _ => false
  end.

(** [replace] looks for the leftmost position where the pattern matches and
    puts the empty string in place of the match, which runs to the end. *)
Fixpoint stripExtension (s : string) : string :=
  match s with
  | EmptyString => EmptyString
  | String c t =>
      if matchesExtension s then EmptyString else String c (stripExtension t)
  end.

(** ** Further sample values *)

(** The draw that makes [randomIndex] return [j] at position [i]. *)
Definition drawFor (j i : nat) : Q :=
  (Z.of_nat (2 * j + 1) # Pos.of_nat (2 * (i + 1))).

(** Library [X, Y, Z] with X playing and Y skipped, nothing queued. *)
Definition skipping_scenario : State :=
  mkState [trackX; trackY; trackZ] [] [] {[ "Y" ]} (Some trackX)
    false false [] true 0%Q.

(** Library [X, Y] with nothing loaded yet, Z queued. *)
Definition idle_scenario : State :=
  mkState [trackX; trackY] [trackZ] [] ∅ None false false [] false 0%Q.

(** A state at the end of the library [X, Y] with Y playing. *)
Definition end_scenario : State :=
  mkState [trackX; trackY] [] [] ∅ (Some trackY) false false [] true 0%Q.

(** ** Array lemmas *)

Section array_facts.
Context {A : Type}.
Implicit Types (l : list A) (p : A → bool).

Lemma at_index_nat l (n : nat) : at_index l (Z.of_nat n) = l !! n.
Proof.
  unfold at_index. destruct (Z.ltb_spec (Z.of_nat n) 0); [lia|].
  by rewrite Nat2Z.id.
Qed.

Lemma at_index_Some l i x :
  at_index l i = Some x → 0 ≤ i < Z.of_nat (length l) ∧ l !! Z.to_nat i = Some x.
Proof.
  unfold at_index. destruct (Z.ltb_spec i 0); [done|].
  intros Hx. split; [|done]. apply lookup_lt_Some in Hx. lia.
Qed.

Lemma at_index_None l i :
  i < 0 ∨ Z.of_nat (length l) ≤ i → at_index l i = None.
Proof.
  unfold at_index. destruct (Z.ltb_spec i 0); [done|].
  intros [?|?]; [lia|]. apply lookup_ge_None. lia.
Qed.

Lemma slice_from_nonneg l start :
  0 ≤ start → slice_from start l = drop (Z.to_nat start) l.
Proof.
  intros ?. unfold slice_from. by destruct (Z.ltb_spec start 0); [lia|].
Qed.

Lemma slice_from_1 x l : slice_from 1 (x :: l) = l.
Proof. by rewrite slice_from_nonneg. Qed.

Lemma slice_init_snoc l x : slice_init (l ++ [x]) = l.
Proof.
  unfold slice_init. rewrite length_app. simpl.
  replace (Z.to_nat _) with (length l) by lia.
  by rewrite take_app_length.
Qed.

Lemma at_index_last_snoc l x :
  at_index (l ++ [x]) (Z.of_nat (length (l ++ [x])) - 1) = Some x.
Proof.
  rewrite length_app. simpl.
  replace (_ - 1) with (Z.of_nat (length l)) by lia.
  rewrite at_index_nat. by rewrite list_lookup_middle.
Qed.

(** [findIndex] against [tracksAfter]: either nothing matches, or the
    result is the offset of the first match and the suffix behind it is
    what [tracksAfter] returns. *)
Lemma findIndex_from_cases p l i :
  (Forall (λ x, p x = false) l ∧ findIndex_from p l i = -1
     ∧ tracksAfter p l = [])
  ∨ (∃ n : nat, findIndex_from p l i = i + Z.of_nat n
      ∧ (n < length l)%nat ∧ tracksAfter p l = drop (S n) l).
Proof.
  revert i. induction l as [|x l IH]; intros i; simpl.
  - left. by repeat split.
  - destruct (p x) eqn:Hp.
    + right. exists 0%nat. split; [lia|]. split; [lia|]. by rewrite drop_0.
    + destruct (IH (i + 1)) as [(Hall & Hf & Ht)|(n & Hf & Hn & Ht)].
      * left. split; [by constructor|done].
      * right. exists (S n). split; [lia|]. split; [lia|done].
Qed.

Lemma findIndex_cases p l :
  (Forall (λ x, p x = false) l ∧ findIndex p l = -1 ∧ tracksAfter p l = [])
  ∨ (∃ n : nat, findIndex p l = Z.of_nat n
      ∧ (n < length l)%nat ∧ tracksAfter p l = drop (S n) l).
Proof.
  destruct (findIndex_from_cases p l 0) as [H|(n & Hf & Hn & Ht)];
    [by left|right].
  exists n. unfold findIndex. rewrite Hf. split; [lia|done].
Qed.

Lemma findIndex_lower p l : -1 ≤ findIndex p l.
Proof.
  destruct (findIndex_cases p l) as [(_ & -> & _)|(n & -> & _)]; lia.
Qed.

(** Filtering out one index deletes that position, and nothing when the
    index is outside the array. *)
Lemma filteri_from_ne_index l (k index : Z) :
  filteri_from (λ i _, negb (i =? index)) k l =
    if (k <=? index) && (index <? k + Z.of_nat (length l))
    then delete (Z.to_nat (index - k)) l else l.
Proof.
  revert k. induction l as [|x l IH]; intros k.
  - by destruct (_ && _).
  - cbn [filteri_from]. rewrite IH, length_cons, Nat2Z.inj_succ. clear IH.
    destruct (Z.eqb_spec k index) as [->|Hne]; cbn [negb].
    + destruct (Z.leb_spec (index + 1) index); [lia|].
      destruct (Z.leb_spec index index); [|lia].
      destruct (Z.ltb_spec index (index + Z.succ (Z.of_nat (length l))));
        [|lia].
      cbn [andb]. by replace (Z.to_nat (index - index)) with 0%nat by lia.
    + destruct (Z.leb_spec (k + 1) index), (Z.leb_spec k index);
        try lia; cbn [andb]; [|done].
      destruct (Z.ltb_spec index (k + 1 + Z.of_nat (length l))),
        (Z.ltb_spec index (k + Z.succ (Z.of_nat (length l))));
        try lia; [|done].
      by replace (Z.to_nat (index - k)) with (S (Z.to_nat (index - (k + 1))))
        by lia.
Qed.

Lemma swap_lookup l (i : nat) (j : Z) a b :
  l !! i = Some a → at_index l j = Some b →
  swap i j l = <[Z.to_nat j := a]> (<[i := b]> l).
Proof. intros Hi Hj. unfold swap. by rewrite Hi, Hj. Qed.

(** An in-place exchange of two cells rearranges the array. *)
Lemma swap_Permutation l (i : nat) (j : Z) : swap i j l ≡ₚ l.
Proof.
  unfold swap. destruct (l !! i) as [a|] eqn:Hi; [|done].
  destruct (at_index l j) as [b|] eqn:Hj; [|done].
  apply at_index_Some in Hj as [Hjr Hj].
  set (jn := Z.to_nat j) in *.
  assert (Hil : (i < length l)%nat) by by eapply lookup_lt_Some.
  assert (Hjl : (jn < length l)%nat) by by eapply lookup_lt_Some.
  apply Permutation_inj. split; [by rewrite !length_insert|].
  exists (λ k, if decide (k = jn) then i else if decide (k = i) then jn else k).
  split.
  - intros x y. repeat case_decide; intros; subst; congruence.
  - intros k. destruct (decide (k = jn)) as [->|Hkj].
    + rewrite list_lookup_insert_eq; [done|by rewrite length_insert].
    + rewrite list_lookup_insert_ne by done.
      destruct (decide (k = i)) as [->|Hki].
      * by rewrite list_lookup_insert_eq.
      * by rewrite list_lookup_insert_ne.
Qed.
End array_facts.

(** ** Facts about the sequencer *)

(** The index drawn for position [i] lies between [0] and [i], so the
    exchange in the shuffle loop never leaves the array. *)
Lemma randomIndex_range (u : sample) (i : nat) :
  0 ≤ randomIndex u i ≤ Z.of_nat i.
Proof.
  unfold randomIndex. destruct u as [v Hv]. cbn [sample_val].
  apply andb_true_iff in Hv as [H0 H1].
  apply Qle_bool_iff in H0. apply negb_true_iff in H1.
  assert (Hlt : (v < 1)%Q).
  { apply Qnot_le_lt. intros Hle. apply Qle_bool_iff in Hle. congruence. }
  set (m := Z.of_nat i + 1).
  assert (Hm : (0 < inject_Z m)%Q).
  { change (inject_Z 0 < inject_Z m)%Q. rewrite <- Zlt_Qlt. lia. }
  split.
  - apply (Qfloor_resp_le 0 (v * inject_Z m)).
    apply Qmult_le_0_compat; [done|by apply Qlt_le_weak].
  - assert (Hup : (v * inject_Z m < inject_Z m)%Q).
    { rewrite <- (Qmult_1_l (inject_Z m)) at 2. by apply Qmult_lt_compat_r. }
    assert (Hfl : (inject_Z (Qfloor (v * inject_Z m)) < inject_Z m)%Q).
    { eapply Qle_lt_trans; [apply Qfloor_le|done]. }
    rewrite <- Zlt_Qlt in Hfl. lia.
Qed.

Lemma fisherYates_loop_Permutation (rnd : nat → sample) k i tracks :
  fisherYates_loop rnd k i tracks ≡ₚ tracks.
Proof.
  revert k tracks. induction i as [|i IH]; intros k tracks; simpl; [done|].
  rewrite IH. apply swap_Permutation.
Qed.

Lemma fisherYates_Permutation (rnd : nat → sample) tracks : fisherYates rnd tracks ≡ₚ tracks.
Proof. apply fisherYates_loop_Permutation. Qed.

(** Inside the loop both cells exist, so [swap] takes its exchanging branch. *)
Lemma fisherYates_swap_in_range (rnd : nat → sample) k i (tracks : list Song) :
  (i < length tracks)%nat →
  ∃ a b, tracks !! i = Some a
         ∧ at_index tracks (randomIndex (rnd k) i) = Some b
         ∧ swap i (randomIndex (rnd k) i) tracks
           = <[Z.to_nat (randomIndex (rnd k) i) := a]> (<[i := b]> tracks).
Proof.
  intros Hi. pose proof (randomIndex_range (rnd k) i) as Hr.
  destruct (lookup_lt_is_Some_2 tracks i Hi) as [a Ha].
  destruct (lookup_lt_is_Some_2 tracks (Z.to_nat (randomIndex (rnd k) i)))
    as [b Hb]; [lia|].
  assert (Hat : at_index tracks (randomIndex (rnd k) i) = Some b).
  { unfold at_index. by destruct (Z.ltb_spec (randomIndex (rnd k) i) 0); [lia|]. }
  exists a, b. split; [done|]. split; [done|]. by apply swap_lookup.
Qed.

Lemma filter_unskipped sk (l : list Song) :
  filter (λ s, unskipped sk s) l = filter (λ s, Song.id s ∉ sk) l.
Proof.
  apply list_filter_iff. intros s. unfold unskipped.
  rewrite negb_True, bool_decide_spec. done.
Qed.

(** The slice taken by the code is the specification's "tracks strictly
    after the current one". *)
Lemma autoQueue_spec st : autoQueue st = spec_libraryAfterCurrent st.
Proof.
  unfold autoQueue, spec_libraryAfterCurrent.
  destruct (currentSong st) as [c|]; [|done].
  destruct (library st) as [|x lib] eqn:Hlib; [done|].
  rewrite <- Hlib.
  assert (Hpos : (0 <? Z.of_nat (length (library st))) = true).
  { rewrite Hlib. by apply Z.ltb_lt; simpl; lia. }
  rewrite Hpos.
  destruct (findIndex_cases (sameId c) (library st))
    as [(_ & -> & ->)|(n & -> & Hn & ->)]; [done|].
  destruct (Z.eqb_spec (Z.of_nat n) (-1)); [lia|]. simpl.
  destruct (Z.ltb_spec (Z.of_nat n) (Z.of_nat (length (library st)) - 1)).
  - rewrite slice_from_nonneg by lia. f_equal. lia.
  - symmetry. apply drop_ge. lia.
Qed.

Lemma getUpNext_ordered st :
  isShuffled st = false → getUpNext st = spec_orderedUpNext st.
Proof.
  intros Hs. unfold getUpNext, spec_orderedUpNext.
  by rewrite Hs, filter_unskipped, autoQueue_spec.
Qed.

Lemma spec_libraryAfterCurrent_subseteq st :
  spec_libraryAfterCurrent st ⊆ library st.
Proof.
  unfold spec_libraryAfterCurrent. destruct (currentSong st) as [c|]; [|set_solver].
  destruct (findIndex_cases (sameId c) (library st))
    as [(_ & _ & ->)|(n & _ & _ & ->)]; [set_solver|apply subseteq_drop].
Qed.

Lemma dropIndex_in_range (index : Z) (l : list Song) :
  0 ≤ index < Z.of_nat (length l) → dropIndex index l = delete (Z.to_nat index) l.
Proof.
  intros Hr. unfold dropIndex, filteri. rewrite filteri_from_ne_index.
  destruct (Z.leb_spec 0 index); [|lia].
  destruct (Z.ltb_spec index (0 + Z.of_nat (length l))); [|lia].
  simpl. by rewrite Z.sub_0_r.
Qed.

Lemma dropIndex_out_of_range (index : Z) (l : list Song) :
  index < 0 ∨ Z.of_nat (length l) ≤ index → dropIndex index l = l.
Proof.
  intros Hr. unfold dropIndex, filteri. rewrite filteri_from_ne_index.
  destruct (Z.leb_spec 0 index), (Z.ltb_spec index (0 + Z.of_nat (length l)));
    simpl; try done; lia.
Qed.

(** ** Shuffle and the up-next list *)

(** C3: with shuffle off, [toggleShuffle] turns shuffle on and leaves a
    Shuffled Queue that is a rearrangement of Manual Queue ++ (Library tracks
    strictly after the Current Track, minus the Skipped Set) -- the same
    tracks and the same multiset of identifiers, nothing duplicated or
    dropped -- whatever [Math.random] returns. *)
Theorem toggleShuffle_on_permutation :
  ∀ (rnd : nat → sample) (st : State),
    isShuffled st = false →
    isShuffled (toggleShuffle rnd st) = true
    ∧ shuffledQueue (toggleShuffle rnd st) ≡ₚ spec_orderedUpNext st
    ∧ ids (shuffledQueue (toggleShuffle rnd st)) ≡ₚ ids (spec_orderedUpNext st)
    ∧ length (shuffledQueue (toggleShuffle rnd st))
      = length (spec_orderedUpNext st).
Proof.
  intros rnd st Hs.
  assert (Hp : shuffledQueue (toggleShuffle rnd st) ≡ₚ spec_orderedUpNext st).
  { unfold toggleShuffle. rewrite Hs. simpl.
    rewrite fisherYates_Permutation.
    by rewrite filter_unskipped, autoQueue_spec. }
  split; [by unfold toggleShuffle; rewrite Hs|].
  split; [done|]. split; [unfold ids; by rewrite Hp|by rewrite Hp].
Qed.

Lemma toggleShuffle_on_permutation_witness :
  shuffledQueue (toggleShuffle (λ _, half) shuffle_scenario)
    = [trackA; trackZ; trackB]
  ∧ shuffledQueue (toggleShuffle (λ _, half) shuffle_scenario)
    ≡ₚ [trackA; trackB; trackZ].
Proof.
  split; [reflexivity|].
  apply (toggleShuffle_on_permutation (λ _, half) shuffle_scenario).
  reflexivity.
Defined.

(** Two runs of the loop on the same tracks with different draws. *)
Example fisherYates_half :
  fisherYates (λ _, half) [trackA; trackB; trackX; trackY]
  = [trackA; trackY; trackB; trackX].
Proof. reflexivity. Qed.

Example fisherYates_tenth :
  fisherYates (λ _, tenth) [trackA; trackB; trackX; trackY]
  = [trackB; trackX; trackY; trackA].
Proof. reflexivity. Qed.

(** C4: [getUpNext] is a function of the state alone (it issues no state
    update): it is the Shuffled Queue itself when shuffle is on, and otherwise
    Manual Queue ++ (Library tracks strictly after the Current Track whose
    identifier is not in the Skipped Set). *)
Theorem getUpNext_spec :
  ∀ st : State,
    getUpNext st =
      if isShuffled st then shuffledQueue st
      else queue st ++
           filter (λ s, Song.id s ∉ skippedTracks st) (spec_libraryAfterCurrent st).
Proof.
  intros st. destruct (isShuffled st) eqn:Hs.
  - unfold getUpNext. by rewrite Hs.
  - by rewrite getUpNext_ordered.
Qed.

Lemma reachable_run es st : reachable st → reachable (run es st).
Proof.
  revert st. induction es as [|e es IH]; intros st Hst; simpl; [done|].
  apply IH. by constructor.
Qed.

Lemma reachable_run_all es : reachable (run es initialState).
Proof. apply reachable_run. constructor. Qed.

(** ** playNext *)

Lemma playNext_unguarded st :
  is_Some (currentSong st) ∨ library st ≠ [] →
  negb (bool_decide (is_Some (currentSong st)))
    && (Z.of_nat (length (library st)) =? 0) = false.
Proof.
  intros [Hc|Hl].
  - by rewrite bool_decide_eq_true_2.
  - apply andb_false_iff. right. apply Z.eqb_neq.
    destruct (library st); [done|simpl; lia].
Qed.

(** C1, as the code has it: with shuffle off, a non-empty Manual Queue and
    either a Current Track or a non-empty Library, [playNext] makes the former
    head of the Manual Queue the Current Track, leaves the Manual Queue without
    its head (one entry shorter) and starts playing. *)
Theorem playNext_consumes_manual_queue :
  ∀ (st : State) (s : Song) (rest : list Song),
    isShuffled st = false →
    queue st = s :: rest →
    is_Some (currentSong st) ∨ library st ≠ [] →
    currentSong (playNext st) = Some s
    ∧ queue (playNext st) = rest
    ∧ S (length (queue (playNext st))) = length (queue st)
    ∧ isPlaying (playNext st) = true.
Proof.
  intros st s rest Hs Hq Hg. unfold playNext.
  rewrite (playNext_unguarded st Hg), Hs, Hq.
  destruct (currentSong st) as [c|]; simpl; rewrite Hq, slice_from_1; done.
Qed.

Lemma playNext_consumes_manual_queue_witness :
  currentSong (playNext (mkState [trackX] [trackA; trackB] [] ∅ (Some trackX)
                           false false [] false 0%Q)) = Some trackA
  ∧ queue (playNext (mkState [trackX] [trackA; trackB] [] ∅ (Some trackX)
                       false false [] false 0%Q)) = [trackB].
Proof.
  destruct (playNext_consumes_manual_queue
              (mkState [trackX] [trackA; trackB] [] ∅ (Some trackX)
                 false false [] false 0%Q) trackA [trackB])
    as (Hc & Hq & _); [reflexivity|reflexivity|left; eexists; reflexivity|].
  exact (conj Hc Hq).
Defined.

(** C1 fails as stated: with nothing loaded and an empty Library the guard at
    the top of [playNext] returns before the Manual Queue is looked at. *)
Lemma playNext_guard_keeps_manual_queue :
  reachable emptied_library_state
  ∧ isShuffled emptied_library_state = false
  ∧ queue emptied_library_state = [trackA]
  ∧ currentSong (playNext emptied_library_state) = None
  ∧ queue (playNext emptied_library_state) = [trackA]
  ∧ isPlaying (playNext emptied_library_state) = false.
Proof.
  split; [apply reachable_run_all|]. by repeat split.
Qed.

Lemma skipLoop_all_skipped sk (rest : list Song) (k : Z) :
  (∀ s, s ∈ rest → Song.id s ∈ sk) →
  skipLoop sk rest k = k + Z.of_nat (length rest).
Proof.
  revert k. induction rest as [|s rest IH]; intros k Hall; simpl; [lia|].
  rewrite bool_decide_eq_true_2 by (apply Hall; left).
  rewrite IH; [lia|]. intros x Hx. apply Hall. by right.
Qed.

(** C6: with shuffle off, an empty Manual Queue and a Current Track after
    whose library position every track is skipped (or there is none),
    [playNext] stops playback and keeps the Current Track: it does not go back
    to the start of the Library. *)
Theorem playNext_end_of_library :
  ∀ (st : State) (c : Song),
    isShuffled st = false →
    queue st = [] →
    currentSong st = Some c →
    (∀ (i : Z) (s : Song),
        findIndex (sameId c) (library st) < i →
        at_index (library st) i = Some s →
        Song.id s ∈ skippedTracks st) →
    isPlaying (playNext st) = false
    ∧ currentSong (playNext st) = Some c.
Proof.
  intros st c Hs Hq Hc Hskip. unfold playNext.
  rewrite Hc, Hs, Hq. simpl.
  destruct (Z.eqb_spec (Z.of_nat (length (library st))) 0) as [|Hlen]; [done|].
  set (idx := findIndex (sameId c) (library st)) in *.
  assert (Hidx : -1 ≤ idx) by apply findIndex_lower.
  rewrite slice_from_nonneg by lia.
  rewrite skipLoop_all_skipped.
  - rewrite length_drop.
    destruct (Z.ltb_spec
                (idx + 1 + Z.of_nat (length (library st) - Z.to_nat (idx + 1)))
                (Z.of_nat (length (library st)))); [lia|done].
  - intros s [j Hj]%list_elem_of_lookup. rewrite lookup_drop in Hj.
    apply (Hskip (Z.of_nat (Z.to_nat (idx + 1) + j))); [lia|].
    by rewrite at_index_nat.
Qed.

Lemma playNext_end_of_library_witness :
  isPlaying (playNext (mkState [trackX; trackY] [] [] ∅ (Some trackY)
                         false false [] true 0%Q)) = false
  ∧ currentSong (playNext (mkState [trackX; trackY] [] [] ∅ (Some trackY)
                             false false [] true 0%Q)) = Some trackY.
Proof.
  apply (playNext_end_of_library
           (mkState [trackX; trackY] [] [] ∅ (Some trackY)
              false false [] true 0%Q) trackY);
    [reflexivity|reflexivity|reflexivity|].
  intros i s Hi Hs. apply at_index_Some in Hs as [Hr _].
  change (1 < i) in Hi. change (0 ≤ i < 2) in Hr. lia.
Defined.

(** C8: with no Current Track and an empty Library, [playNext] and
    [playPrevious] both return the state they were given, untouched in every
    field; both are total functions, so there is no failure to speak of. *)
Theorem playNext_playPrevious_idle_noop :
  ∀ st : State,
    currentSong st = None →
    library st = [] →
    playNext st = st ∧ playPrevious st = st.
Proof.
  intros st Hc Hl. unfold playNext, playPrevious. by rewrite Hc, Hl.
Qed.

Lemma playNext_playPrevious_idle_noop_witness :
  playNext (mkState [] [trackA] [] ∅ None false true [] false 0%Q)
    = mkState [] [trackA] [] ∅ None false true [] false 0%Q
  ∧ playPrevious (mkState [] [trackA] [] ∅ None false true [] false 0%Q)
    = mkState [] [trackA] [] ∅ None false true [] false 0%Q.
Proof.
  apply (playNext_playPrevious_idle_noop
           (mkState [] [trackA] [] ∅ None false true [] false 0%Q));
    reflexivity.
Defined.

(** ** Removing an entry of the up-next list *)

Lemma setShuffledQueue_id st : setShuffledQueue (shuffledQueue st) st = st.
Proof. by destruct st. Qed.

Lemma setQueue_id st : setQueue (queue st) st = st.
Proof. by destruct st. Qed.

Lemma getUpNext_length_queue st :
  isShuffled st = false → (length (queue st) ≤ length (getUpNext st))%nat.
Proof. intros Hs. unfold getUpNext. rewrite Hs, length_app. lia. Qed.

Lemma getUpNext_setSkippedTracks sk st :
  isShuffled st = false →
  getUpNext (setSkippedTracks sk st)
  = queue st ++ filter (λ s, unskipped sk s) (autoQueue st).
Proof. intros Hs. unfold getUpNext. simpl. by rewrite Hs. Qed.

(** C5: for an index inside the up-next list, [handleRemoveFromUpNext]
    deletes that position of the Shuffled Queue when shuffle is on; with
    shuffle off it deletes that position of the Manual Queue when the index
    falls inside it, and otherwise changes nothing but the Skipped Set, which
    gains the identifier of the up-next entry at that index -- the entry then
    disappears from the library part of the up-next list.  Every other field
    of the state is as before. *)
Theorem handleRemoveFromUpNext_in_range :
  ∀ (st : State) (index : Z),
    0 ≤ index < Z.of_nat (length (getUpNext st)) →
    (isShuffled st = true →
       handleRemoveFromUpNext index st
       = setShuffledQueue (delete (Z.to_nat index) (shuffledQueue st)) st)
    ∧ (isShuffled st = false → index < Z.of_nat (length (queue st)) →
       handleRemoveFromUpNext index st
       = setQueue (delete (Z.to_nat index) (queue st)) st)
    ∧ (isShuffled st = false → Z.of_nat (length (queue st)) ≤ index →
       ∃ s : Song,
         getUpNext st !! Z.to_nat index = Some s
         ∧ handleRemoveFromUpNext index st
           = setSkippedTracks ({[ Song.id s ]} ∪ skippedTracks st) st
         ∧ queue (handleRemoveFromUpNext index st) = queue st
         ∧ library (handleRemoveFromUpNext index st) = library st
         ∧ getUpNext (handleRemoveFromUpNext index st)
           = queue st ++
             filter (λ x, Song.id x ≠ Song.id s)
               (drop (length (queue st)) (getUpNext st))).
Proof.
  intros st index Hr. split; [|split].
  - intros Hs. unfold handleRemoveFromUpNext. rewrite Hs.
    unfold getUpNext in Hr. rewrite Hs in Hr.
    by rewrite dropIndex_in_range.
  - intros Hs Hq. unfold handleRemoveFromUpNext. rewrite Hs.
    destruct (Z.ltb_spec index (Z.of_nat (length (queue st)))); [|lia].
    by rewrite dropIndex_in_range by lia.
  - intros Hs Hq.
    destruct (lookup_lt_is_Some_2 (getUpNext st) (Z.to_nat index)) as [s Hsong];
      [lia|].
    exists s. split; [done|].
    assert (Heq : handleRemoveFromUpNext index st
                  = setSkippedTracks ({[ Song.id s ]} ∪ skippedTracks st) st).
    { unfold handleRemoveFromUpNext. rewrite Hs.
      destruct (Z.ltb_spec index (Z.of_nat (length (queue st)))); [lia|].
      unfold at_index. destruct (Z.ltb_spec index 0); [lia|]. by rewrite Hsong. }
    rewrite Heq. split; [done|]. split; [done|]. split; [done|].
    rewrite getUpNext_setSkippedTracks by done.
    unfold getUpNext. rewrite Hs, drop_app_length. f_equal.
    rewrite list_filter_filter. apply list_filter_iff. intros x.
    unfold unskipped. rewrite !negb_True, !bool_decide_spec.
    rewrite not_elem_of_union, not_elem_of_singleton. done.
Qed.

Lemma handleRemoveFromUpNext_in_range_witness :
  getUpNext removal_scenario = [trackA; trackY; trackZ]
  ∧ getUpNext (handleRemoveFromUpNext 1 removal_scenario) = [trackA; trackZ]
  ∧ queue (handleRemoveFromUpNext 1 removal_scenario) = [trackA]
  ∧ skippedTracks (handleRemoveFromUpNext 1 removal_scenario) = {[ "Y" ]} ∪ ∅.
Proof.
  assert (Hup : getUpNext removal_scenario = [trackA; trackY; trackZ])
    by reflexivity.
  destruct (handleRemoveFromUpNext_in_range removal_scenario 1)
    as (_ & _ & H3); [rewrite Hup; simpl; lia|].
  destruct H3 as (s & Hs & Heq & Hq & _ & Hnext);
    [reflexivity|simpl; lia|].
  rewrite Hup in Hs. injection Hs as <-.
  split; [exact Hup|]. split; [|split].
  - rewrite Hnext, Hup. reflexivity.
  - exact Hq.
  - rewrite Heq. reflexivity.
Defined.

(** C10: for an index outside the up-next list (negative, or at least its
    length), [handleRemoveFromUpNext] returns the state it was given, with
    every field as before. *)
Theorem handleRemoveFromUpNext_out_of_range :
  ∀ (st : State) (index : Z),
    index < 0 ∨ Z.of_nat (length (getUpNext st)) ≤ index →
    handleRemoveFromUpNext index st = st.
Proof.
  intros st index Hr. unfold handleRemoveFromUpNext.
  destruct (isShuffled st) eqn:Hs.
  - unfold getUpNext in Hr. rewrite Hs in Hr.
    rewrite dropIndex_out_of_range by done. apply setShuffledQueue_id.
  - pose proof (getUpNext_length_queue st Hs) as Hlen.
    destruct (Z.ltb_spec index (Z.of_nat (length (queue st)))).
    + rewrite dropIndex_out_of_range by lia. apply setQueue_id.
    + by rewrite at_index_None.
Qed.

Lemma handleRemoveFromUpNext_out_of_range_witness :
  handleRemoveFromUpNext 3 removal_scenario = removal_scenario
  ∧ handleRemoveFromUpNext (-1) removal_scenario = removal_scenario.
Proof.
  split; apply handleRemoveFromUpNext_out_of_range.
  - right. vm_compute. discriminate.
  - left. lia.
Defined.

(** ** History *)

Lemma skipLoop_lower sk (rest : list Song) (k : Z) : k ≤ skipLoop sk rest k.
Proof.
  revert k. induction rest as [|s rest IH]; intros k; simpl; [lia|].
  destruct (bool_decide _); [|lia]. specialize (IH (k + 1)). lia.
Qed.

Lemma at_index_is_Some {A : Type} (l : list A) (i : Z) :
  0 ≤ i < Z.of_nat (length l) → is_Some (at_index l i).
Proof.
  intros Hr. unfold at_index. destruct (Z.ltb_spec i 0); [lia|].
  apply lookup_lt_is_Some_2. lia.
Qed.

(** What [playNext] does to the Current Track and the History. *)
Lemma playNext_current_history st :
  match currentSong st with
  | Some c =>
      is_Some (currentSong (playNext st))
      ∧ history (playNext st) = history st ++ [c]
  | None => history (playNext st) = history st
  end.
Proof.
  unfold playNext. destruct (currentSong st) as [c|] eqn:Hc.
  - cbn [negb bool_decide andb]. rewrite bool_decide_eq_true_2 by eauto.
    cbn [negb andb].
    destruct (isShuffled st).
    { destruct (shuffledQueue st); simpl; rewrite ?Hc; eauto. }
    destruct (queue st); [|simpl; eauto].
    destruct (Z.eqb_spec (Z.of_nat (length (library st))) 0);
      [simpl; rewrite Hc; eauto|].
    set (idx := findIndex (sameId c) (library st)).
    set (nextIndex := skipLoop _ _ _).
    destruct (Z.ltb_spec nextIndex (Z.of_nat (length (library st))));
      simpl; [|rewrite Hc; eauto].
    split; [|done]. apply at_index_is_Some.
    pose proof (findIndex_lower (sameId c) (library st)).
    pose proof (skipLoop_lower (skippedTracks st)
                  (slice_from (idx + 1) (library st)) (idx + 1)).
    fold idx in H0. fold nextIndex in H1. lia.
  - destruct (_ && _); [done|].
    destruct (isShuffled st).
    { by destruct (shuffledQueue st). }
    destruct (queue st); [|done].
    destruct (_ =? _); [done|]. by destruct (_ <? _).
Qed.

Lemma playPrevious_no_song t st :
  currentSong st = None → playPrevious (onTimeUpdate t st) = onTimeUpdate t st.
Proof. intros Hc. unfold playPrevious. simpl. by rewrite Hc. Qed.

(** Within the first three seconds, [playPrevious] pops the History. *)
Lemma playPrevious_pops t st c h :
  (t <= 3)%Q →
  is_Some (currentSong st) →
  history st = h ++ [c] →
  currentSong (playPrevious (onTimeUpdate t st)) = Some c
  ∧ history (playPrevious (onTimeUpdate t st)) = h.
Proof.
  intros Ht [c' Hc] Hh. unfold playPrevious, pastRestartThreshold.
  cbn [onTimeUpdate setCurrentTime currentSong currentTime history library].
  rewrite Hc. apply Qle_bool_iff in Ht. rewrite Ht. cbn [negb].
  rewrite Hh. rewrite at_index_last_snoc, slice_init_snoc.
  destruct (Z.ltb_spec 0 (Z.of_nat (length (h ++ [c])))); [done|].
  rewrite length_app in *. simpl in *. lia.
Qed.

Lemma playPrevious_at_app ts1 ts2 st :
  playPrevious_at (ts1 ++ ts2) st = playPrevious_at ts2 (playPrevious_at ts1 st).
Proof. revert st. induction ts1 as [|t ts1 IH]; intros st; simpl; [done|apply IH]. Qed.

Lemma previous_run_ok_app ts1 ts2 st :
  previous_run_ok (ts1 ++ ts2) st →
  previous_run_ok ts1 st ∧ previous_run_ok ts2 (playPrevious_at ts1 st).
Proof.
  revert st. induction ts1 as [|t ts1 IH]; intros st; simpl; [done|].
  intros (Ht & Hh & Hrest). apply IH in Hrest as [??]. done.
Qed.

Lemma previous_run_ok_times ts st :
  previous_run_ok ts st → Forall (λ t, (t <= 3)%Q) ts.
Proof.
  revert st. induction ts as [|t ts IH]; intros st; simpl; [constructor|].
  intros (Ht & _ & Hrest). constructor; eauto.
Qed.

Lemma playPrevious_at_no_song ts st :
  currentSong st = None → currentSong (playPrevious_at ts st) = None.
Proof.
  revert st. induction ts as [|t ts IH]; intros st Hc; simpl; [done|].
  rewrite playPrevious_no_song by done. by apply IH.
Qed.

Lemma list_snoc_length {A : Type} (l : list A) (n : nat) :
  length l = S n → ∃ l' x, l = l' ++ [x] ∧ length l' = n.
Proof.
  intros Hl. destruct l as [|y l] using rev_ind; [done|].
  exists l, y. split; [done|]. rewrite length_app in Hl. simpl in Hl. lia.
Qed.

(** From a state with a Current Track, [n] steps forward and [n] steps back
    restore both the Current Track and the History. *)
Lemma next_previous_restores n :
  ∀ st c ts,
    currentSong st = Some c →
    length ts = n →
    Forall (λ t, (t <= 3)%Q) ts →
    currentSong (playPrevious_at ts (playNext_times n st)) = Some c
    ∧ history (playPrevious_at ts (playNext_times n st)) = history st.
Proof.
  induction n as [|n IH]; intros st c ts Hc Hlen Hts.
  - destruct ts; [done|discriminate].
  - apply list_snoc_length in Hlen as (ts' & t & -> & Hlen).
    apply Forall_app in Hts as [Hts' Ht]. apply Forall_inv in Ht.
    pose proof (playNext_current_history st) as Hn. rewrite Hc in Hn.
    destruct Hn as [[c' Hc'] Hh].
    destruct (IH (playNext st) c' ts' Hc' Hlen Hts') as [Hcur Hhist].
    rewrite playPrevious_at_app. cbn [playNext_times playPrevious_at].
    apply playPrevious_pops; [done|by rewrite Hcur|by rewrite Hhist, Hh].
Qed.

(** From a state with neither a Current Track nor a History, a run that is
    long enough either never loads a track or meets an empty History. *)
Lemma next_previous_from_idle n :
  ∀ st ts,
    currentSong st = None →
    history st = [] →
    (n ≤ length ts)%nat →
    previous_run_ok ts (playNext_times n st) →
    currentSong (playPrevious_at ts (playNext_times n st)) = None.
Proof.
  induction n as [|n IH]; intros st ts Hc Hh Hlen Hok.
  - by apply playPrevious_at_no_song.
  - cbn [playNext_times] in *.
    pose proof (playNext_current_history st) as Hn. rewrite Hc, Hh in Hn.
    destruct (currentSong (playNext st)) as [c1|] eqn:Hc1.
    + exfalso. rewrite <- (take_drop n ts) in Hok.
      apply previous_run_ok_app in Hok as [Hok1 Hok2].
      destruct (next_previous_restores n (playNext st) c1 (take n ts))
        as [_ Hhist]; [done|rewrite length_take; lia|
                       by eapply previous_run_ok_times|].
      destruct (drop n ts) as [|t ts2] eqn:Hd.
      { apply (f_equal length) in Hd. rewrite length_drop in Hd. simpl in Hd. lia. }
      destruct Hok2 as (_ & Hne & _). apply Hne. by rewrite Hhist.
    + apply IH; [done|done|lia|done].
Qed.

Lemma playNext_history_inv st : history_inv st → history_inv (playNext st).
Proof.
  unfold history_inv. intros Hinv Hnone.
  pose proof (playNext_current_history st) as Hn.
  destruct (currentSong st) as [c|].
  - destruct Hn as [[c' Hc'] _]. congruence.
  - rewrite Hn. by apply Hinv.
Qed.

Lemma playPrevious_history_inv st : history_inv st → history_inv (playPrevious st).
Proof.
  unfold history_inv, playPrevious. intros Hinv.
  destruct (currentSong st) as [c|] eqn:Hc; [|by rewrite Hc].
  destruct (pastRestartThreshold _); [by rewrite Hc|].
  destruct (Z.ltb_spec 0 (Z.of_nat (length (history st)))) as [Hlen|Hlen].
  - cbn [setIsPlaying setCurrentSong setHistory currentSong history].
    intros Hnone.
    destruct (at_index_is_Some (history st) (Z.of_nat (length (history st)) - 1))
      as [x Hx]; [lia|congruence].
  - assert (Hh : history st = []) by (destruct (history st); [done|simpl in Hlen; lia]).
    destruct (_ <? _); [|done]. by destruct (_ <? _).
Qed.

Lemma handleRemoveFromUpNext_current_history index st :
  currentSong (handleRemoveFromUpNext index st) = currentSong st
  ∧ history (handleRemoveFromUpNext index st) = history st.
Proof.
  unfold handleRemoveFromUpNext. destruct (isShuffled st); [done|].
  destruct (_ <? _); [done|]. by destruct (at_index _ _).
Qed.

Lemma handle_history_inv e st : history_inv st → history_inv (handle e st).
Proof.
  intros Hinv. destruct e; cbn [handle].
  - by apply playNext_history_inv.
  - by apply playPrevious_history_inv.
  - unfold handleAddToQueue. by destruct (isShuffled st).
  - unfold history_inv.
    by destruct (handleRemoveFromUpNext_current_history index st) as [-> ->].
  - unfold toggleShuffle. by destruct (isShuffled st).
  - done.
  - done.
  - done.
  - by intros ?.
  - done.
  - unfold handleUpload, history_inv. by destruct captured.
  - by intros _.
  - unfold handleSongEnd. destruct (_ && _); [done|by apply playNext_history_inv].
  - by apply playNext_history_inv.
  - done.
Qed.

Lemma reachable_history_inv allowed st :
  reachable_via allowed st → history_inv st.
Proof.
  induction 1 as [|st e _ IH _]; [done|by apply handle_history_inv].
Qed.

(** C7: from any state the player can be in with shuffle off, [n] calls of
    [playNext] followed by [n] calls of [playPrevious], each made within the
    first three seconds of the track and each finding a non-empty History,
    bring the Current Track back to what it was. *)
Theorem history_LIFO_law :
  ∀ (st : State) (n : nat) (ts : list Q),
    reachable st →
    isShuffled st = false →
    length ts = n →
    previous_run_ok ts (playNext_times n st) →
    currentSong (playPrevious_at ts (playNext_times n st)) = currentSong st.
Proof.
  intros st n ts Hreach _ Hlen Hok.
  destruct (currentSong st) as [c|] eqn:Hc.
  - apply (next_previous_restores n st c ts Hc Hlen).
    by eapply previous_run_ok_times.
  - apply next_previous_from_idle; [done| |lia|done].
    by apply (reachable_history_inv _ st Hreach).
Qed.

Lemma history_LIFO_law_witness :
  currentSong (playNext_times 2 lifo_scenario) = Some trackZ
  ∧ currentSong (playPrevious_at [1%Q; (5 # 2)%Q] (playNext_times 2 lifo_scenario))
    = Some trackX.
Proof.
  split; [reflexivity|].
  apply (history_LIFO_law lifo_scenario 2 [1%Q; (5 # 2)%Q]).
  - apply reachable_run_all.
  - reflexivity.
  - reflexivity.
  - repeat split; discriminate.
Defined.

(** The law leans on [history_inv]: a record with a History but no Current
    Track, which no run of events produces, would come back from one step
    forward and one step back with the top of that History loaded. *)
Example history_LIFO_outside_reachable :
  currentSong
    (playPrevious_at [1%Q]
       (playNext_times 1
          (mkState [trackX] [] [trackY] ∅ None false false [] false 0%Q)))
  = Some trackY.
Proof. reflexivity. Qed.

(** ** The Skipped Set *)

Lemma playNext_frame st :
  library (playNext st) = library st
  ∧ skippedTracks (playNext st) = skippedTracks st.
Proof.
  unfold playNext. destruct (_ && _); [done|].
  destruct (isShuffled st).
  { destruct (shuffledQueue st), (currentSong st); done. }
  destruct (queue st); [|by destruct (currentSong st)].
  destruct (_ =? _); [by destruct (currentSong st)|].
  destruct (_ <? _); by destruct (currentSong st).
Qed.

Lemma playPrevious_frame st :
  library (playPrevious st) = library st
  ∧ skippedTracks (playPrevious st) = skippedTracks st.
Proof.
  unfold playPrevious. destruct (currentSong st); [|done].
  destruct (pastRestartThreshold _); [done|].
  destruct (_ <? _); [done|]. destruct (_ <? _); [|done]. by destruct (_ <? _).
Qed.

(** The only identifiers [handleRemoveFromUpNext] ever adds to the Skipped
    Set belong to Library tracks. *)
Lemma handleRemoveFromUpNext_skips_library_track index st :
  library (handleRemoveFromUpNext index st) = library st
  ∧ ∀ i, i ∈ skippedTracks (handleRemoveFromUpNext index st) →
         i ∈ skippedTracks st ∨ i ∈ ids (library st).
Proof.
  unfold handleRemoveFromUpNext.
  destruct (isShuffled st) eqn:Hs; [by split; [|left]|].
  destruct (Z.ltb_spec index (Z.of_nat (length (queue st)))) as [|Hge];
    [by split; [|left]|].
  destruct (at_index (getUpNext st) index) as [s|] eqn:Hat; [|by split; [|left]].
  split; [done|]. cbn [setSkippedTracks skippedTracks].
  intros i [->%elem_of_singleton|Hi]%elem_of_union; [right|by left].
  apply at_index_Some in Hat as [Hr Hat].
  rewrite getUpNext_ordered in Hat by done. unfold spec_orderedUpNext in Hat.
  rewrite lookup_app_r in Hat by lia.
  apply list_elem_of_lookup_2 in Hat.
  apply list_elem_of_filter in Hat as [_ Hin].
  apply spec_libraryAfterCurrent_subseteq in Hin.
  unfold ids. apply list_elem_of_fmap. by exists s.
Qed.

Lemma handle_skipped_inv e st :
  refresh_keeps_skipped st e → skipped_inv st → skipped_inv (handle e st).
Proof.
  intros Hallowed Hinv. unfold skipped_inv.
  destruct e; cbn [handle].
  - by destruct (playNext_frame st) as [-> ->].
  - by destruct (playPrevious_frame st) as [-> ->].
  - unfold handleAddToQueue. by destruct (isShuffled st).
  - destruct (handleRemoveFromUpNext_skips_library_track index st) as [-> Hadd].
    intros i [?|?]%Hadd; [by apply Hinv|done].
  - unfold toggleShuffle. by destruct (isShuffled st).
  - done.
  - done.
  - done.
  - unfold handlePlayFromLibrary. cbn. intros i Hi. set_solver.
  - exact Hallowed.
  - assert (Hlib : ∀ i, i ∈ skippedTracks st → i ∈ ids (song :: library st)).
    { intros i Hi. unfold ids. rewrite fmap_cons. right. by apply Hinv. }
    unfold handleUpload. by destruct captured.
  - cbn. intros i Hi. set_solver.
  - unfold handleSongEnd. destruct (_ && _); [done|].
    by destruct (playNext_frame st) as [-> ->].
  - unfold handleAudioError. by destruct (playNext_frame st) as [-> ->].
  - done.
Qed.

(** C9, as the code has it: in every state reached by the exposed operations,
    where a library refresh is one whose fetched collection still holds every
    skipped track, each identifier in the Skipped Set is the identifier of a
    track of the current Library -- so none belongs to a track found only in
    the Manual or Shuffled Queue. *)
Theorem skipped_set_within_library :
  ∀ st : State,
    reachable_via refresh_keeps_skipped st →
    ∀ i, i ∈ skippedTracks st → ∃ s, s ∈ library st ∧ Song.id s = i.
Proof.
  intros st Hreach.
  assert (Hinv : skipped_inv st).
  { induction Hreach as [|st e _ IH Hallowed]; [|by apply handle_skipped_inv].
    intros i Hi. cbn in Hi. set_solver. }
  intros i Hi. apply Hinv in Hi. unfold ids in Hi.
  apply list_elem_of_fmap in Hi as (s & -> & Hs). by exists s.
Qed.

Lemma skipped_set_within_library_witness :
  "Y" ∈ skippedTracks
          (handle (RefreshLibrary [trackY; trackX; trackZ]) skip_scenario)
  ∧ ∃ s, s ∈ library
               (handle (RefreshLibrary [trackY; trackX; trackZ]) skip_scenario)
         ∧ Song.id s = "Y".
Proof.
  assert (Hy : "Y" ∈ skippedTracks
                       (handle (RefreshLibrary [trackY; trackX; trackZ])
                          skip_scenario)).
  { change ("Y" ∈ ({[ "Y" ]} ∪ ∅ : gset string)).
    apply elem_of_union_l, elem_of_singleton. reflexivity. }
  split; [exact Hy|].
  apply (skipped_set_within_library
           (handle (RefreshLibrary [trackY; trackX; trackZ]) skip_scenario));
    [|exact Hy].
  apply reach_step.
  - unfold skip_scenario.
    apply reach_step; [|exact I]. apply reach_step; [|exact I].
    apply reach_step; [apply reach_init|].
    intros i Hi. by apply not_elem_of_empty in Hi.
  - intros i Hi. change (i ∈ ({[ "Y" ]} ∪ ∅ : gset string)) in Hi.
    apply elem_of_union in Hi as [Hi|Hi].
    + apply elem_of_singleton in Hi. subst i. left.
    + by apply not_elem_of_empty in Hi.
Defined.

(** C9 fails as stated: [refreshLibrary] replaces the Library and leaves the
    Skipped Set alone, so it keeps the identifier of a track that is no longer
    in the Library and here survives only in the Manual Queue. *)
Lemma refresh_leaves_stale_skip :
  reachable stale_skip_state
  ∧ library stale_skip_state = [trackX]
  ∧ queue stale_skip_state = [trackY]
  ∧ "Y" ∈ skippedTracks stale_skip_state
  ∧ ¬ ∃ s, s ∈ library stale_skip_state ∧ Song.id s = "Y".
Proof.
  split; [apply reachable_run_all|]. split; [reflexivity|]. split; [reflexivity|].
  split.
  - change ("Y" ∈ ({[ "Y" ]} ∪ ∅ : gset string)).
    apply elem_of_union_l, elem_of_singleton. reflexivity.
  - change (library stale_skip_state) with [trackX].
    intros (s & Hs & Hid). apply list_elem_of_singleton in Hs. subst s.
    discriminate Hid.
Qed.

(** * Further properties of the handlers *)

(** ** What playNext picks *)

Lemma findIndex_from_absent {A : Type} (p : A → bool) (l : list A) (i : Z) :
  (∀ x, x ∈ l → p x = false) → findIndex_from p l i = -1.
Proof.
  revert i. induction l as [|x l IH]; intros i Hall; simpl; [done|].
  rewrite (Hall x) by left. apply IH. intros y Hy. apply Hall. by right.
Qed.

Lemma findIndex_from_first {A : Type} (p : A → bool) (l1 l2 : list A) x (i : Z) :
  (∀ y, y ∈ l1 → p y = false) → p x = true →
  findIndex_from p (l1 ++ x :: l2) i = i + Z.of_nat (length l1).
Proof.
  revert i. induction l1 as [|y l1 IH]; intros i Hall Hx; simpl.
  - rewrite Hx. lia.
  - rewrite (Hall y) by left. rewrite IH; [lia| |done].
    intros z Hz. apply Hall. by right.
Qed.

(** The skip loop stops either behind the last track or on the first track
    that is not skipped. *)
Lemma skipLoop_cases sk (rest : list Song) (k : Z) :
  (skipLoop sk rest k = k + Z.of_nat (length rest)
   ∧ filter (λ s, unskipped sk s) rest = [])
  ∨ (∃ (m : nat) (s : Song) (r : list Song),
       skipLoop sk rest k = k + Z.of_nat m
       ∧ rest !! m = Some s
       ∧ (Song.id s ∉ sk)
       ∧ filter (λ s, unskipped sk s) rest = s :: r).
Proof.
  revert k. induction rest as [|x rest IH]; intros k.
  - left. split; [simpl; lia|done].
  - cbn [skipLoop]. rewrite filter_cons.
    destruct (bool_decide (Song.id x ∈ sk)) eqn:Hb.
    + rewrite decide_False by (unfold unskipped; rewrite Hb; simpl; tauto).
      destruct (IH (k + 1)) as [[Hk Hf]|(m & s & r & Hk & Hm & Hs & Hf)].
      * left. split; [rewrite length_cons; lia|done].
      * right. exists (S m), s, r. split; [lia|done].
    + rewrite decide_True by (unfold unskipped; by rewrite Hb).
      apply bool_decide_eq_false in Hb.
      right. exists 0%nat, x, (filter (λ s, unskipped sk s) rest).
      split; [lia|done].
Qed.

(** The shape of the library fallback of [playNext], for a track loaded or
    not, with [currentIndex] as the code computes it. *)
Lemma playNext_library_order st :
  isShuffled st = false → queue st = [] → library st ≠ [] →
  ∀ currentIndex,
    currentIndex = match currentSong st with
                   | Some c => findIndex (sameId c) (library st)
                   | None => -1
                   end →
    (filter (λ s, unskipped (skippedTracks st) s)
       (drop (Z.to_nat (currentIndex + 1)) (library st)) = []
     ∧ isPlaying (playNext st) = false
     ∧ currentSong (playNext st) = currentSong st)
    ∨ (∃ s r, filter (λ s, unskipped (skippedTracks st) s)
                (drop (Z.to_nat (currentIndex + 1)) (library st)) = s :: r
        ∧ isPlaying (playNext st) = true
        ∧ currentSong (playNext st) = Some s
        ∧ s ∈ library st
        ∧ Song.id s ∉ skippedTracks st).
Proof.
  intros Hs Hq Hlib idx Hidx.
  assert (Hlow : -1 ≤ idx).
  { subst idx. destruct (currentSong st); [apply findIndex_lower|lia]. }
  unfold playNext. rewrite playNext_unguarded by by right.
  rewrite Hs, Hq, <- Hidx.
  destruct (Z.eqb_spec (Z.of_nat (length (library st))) 0) as [Hz|_].
  { destruct (library st); [done|simpl in Hz; lia]. }
  rewrite slice_from_nonneg by lia.
  set (rest := drop (Z.to_nat (idx + 1)) (library st)).
  destruct (skipLoop_cases (skippedTracks st) rest (idx + 1))
    as [[Hk Hf]|(m & s & r & Hk & Hm & Hout & Hf)]; rewrite Hk.
  - left. split; [done|]. unfold rest. rewrite length_drop.
    destruct (Z.ltb_spec
                (idx + 1 + Z.of_nat (length (library st) - Z.to_nat (idx + 1)))
                (Z.of_nat (length (library st)))); [lia|].
    destruct (currentSong st) eqn:Hc; simpl; by rewrite ?Hc.
  - right. exists s, r. split; [done|].
    unfold rest in Hm. rewrite lookup_drop in Hm.
    pose proof (lookup_lt_Some _ _ _ Hm) as Hlt.
    destruct (Z.ltb_spec (idx + 1 + Z.of_nat m) (Z.of_nat (length (library st))));
      [|lia].
    replace (idx + 1 + Z.of_nat m) with (Z.of_nat (Z.to_nat (idx + 1) + m)) by lia.
    rewrite at_index_nat, Hm.
    split; [by destruct (currentSong st)|]. split; [by destruct (currentSong st)|].
    split; [by eapply list_elem_of_lookup_2|done].
Qed.

Lemma playNext_head :
  ∀ (st : State) (s : Song) (rest : list Song),
    getUpNext st = s :: rest →
    is_Some (currentSong st) ∨ library st ≠ [] →
    currentSong (playNext st) = Some s ∧ isPlaying (playNext st) = true.
Proof.
  intros st s rest Hup Hg. destruct (isShuffled st) eqn:Hs.
  - unfold getUpNext in Hup. rewrite Hs in Hup.
    unfold playNext. rewrite (playNext_unguarded st Hg), Hs, Hup.
    by destruct (currentSong st).
  - destruct (queue st) as [|q qs] eqn:Hq.
    + rewrite getUpNext_ordered in Hup by done.
      unfold spec_orderedUpNext in Hup. rewrite Hq in Hup. simpl in Hup.
      rewrite <- filter_unskipped in Hup.
      unfold spec_libraryAfterCurrent in Hup.
      destruct (currentSong st) as [c|] eqn:Hc; [|done].
      destruct (findIndex_cases (sameId c) (library st))
        as [(_ & _ & Ht)|(n & Hn & Hlt & Ht)]; rewrite Ht in Hup; [done|].
      assert (Hlib : library st ≠ []) by (destruct (library st); [simpl in Hlt; lia|done]).
      destruct (playNext_library_order st Hs Hq Hlib (Z.of_nat n))
        as [(Hf & _)|(s' & r & Hf & Hp & Hcur & _)].
      * by rewrite Hc.
      * replace (Z.to_nat (Z.of_nat n + 1)) with (S n) in Hf by lia. congruence.
      * replace (Z.to_nat (Z.of_nat n + 1)) with (S n) in Hf by lia.
        rewrite Hup in Hf. by injection Hf as <- _.
    + unfold getUpNext in Hup. rewrite Hs, Hq in Hup. injection Hup as -> _.
      unfold playNext. rewrite (playNext_unguarded st Hg), Hs, Hq.
      by destruct (currentSong st).
Qed.

(** Whenever [playNext] passes its guard and the up-next list is not empty,
    the track it loads is the head of that list, and playback starts. *)
Theorem playNext_plays_head_of_upNext :
  ∀ (st : State) (s : Song) (rest : list Song),
    getUpNext st = s :: rest →
    is_Some (currentSong st) ∨ library st ≠ [] →
    currentSong (playNext st) = Some s ∧ isPlaying (playNext st) = true.
Proof. exact playNext_head. Qed.

Lemma playNext_plays_head_of_upNext_witness :
  currentSong (playNext shuffle_scenario) = Some trackA
  ∧ isPlaying (playNext shuffle_scenario) = true.
Proof.
  apply (playNext_plays_head_of_upNext shuffle_scenario trackA [trackB; trackZ]).
  - reflexivity.
  - left. eexists. reflexivity.
Defined.

(** With shuffle off and an empty Manual Queue, a [playNext] that changes the
    Current Track loads a Library track that is not skipped, and plays it. *)
Theorem playNext_never_loads_skipped :
  ∀ (st : State) (s : Song),
    isShuffled st = false →
    queue st = [] →
    currentSong (playNext st) = Some s →
    currentSong (playNext st) ≠ currentSong st →
    s ∈ library st
    ∧ (Song.id s ∉ skippedTracks st)
    ∧ isPlaying (playNext st) = true.
Proof.
  intros st s Hs Hq Hcur Hne.
  destruct (library st) as [|x lib] eqn:Hlib.
  - exfalso. apply Hne. unfold playNext. rewrite Hs, Hq, Hlib.
    destruct (currentSong st) as [c|] eqn:Hc.
    + rewrite bool_decide_eq_true_2 by eauto. simpl. by rewrite Hc.
    + rewrite bool_decide_eq_false_2 by (by intros [? ?]). simpl. by rewrite Hc.
  - assert (Hl : library st ≠ []) by by rewrite Hlib.
    destruct (playNext_library_order st Hs Hq Hl _ eq_refl)
      as [(_ & _ & Hsame)|(s' & r & _ & Hp & Hcur' & Hin & Hout)].
    + by rewrite Hsame in Hne.
    + rewrite <- Hlib. rewrite Hcur in Hcur'. by injection Hcur' as ->.
Qed.

Lemma playNext_never_loads_skipped_witness :
  trackZ ∈ library skipping_scenario
  ∧ (Song.id trackZ ∉ skippedTracks skipping_scenario)
  ∧ isPlaying (playNext skipping_scenario) = true.
Proof.
  apply (playNext_never_loads_skipped skipping_scenario trackZ);
    [reflexivity|reflexivity|reflexivity|].
  change (Some trackZ ≠ Some trackX). discriminate.
Defined.

(** With shuffle off and an empty Manual Queue, when no Library track carries
    the identifier of the Current Track (in particular when nothing is
    loaded), the up-next list is empty, yet [playNext] loads the first Library
    track that is not skipped. *)
Theorem playNext_starts_at_library_top :
  ∀ (st : State) (s : Song) (r : list Song),
    isShuffled st = false →
    queue st = [] →
    (∀ c x, currentSong st = Some c → x ∈ library st → Song.id x ≠ Song.id c) →
    filter (λ x, Song.id x ∉ skippedTracks st) (library st) = s :: r →
    getUpNext st = []
    ∧ currentSong (playNext st) = Some s
    ∧ isPlaying (playNext st) = true.
Proof.
  intros st s r Hs Hq Habs Hf.
  assert (Hlib : library st ≠ []) by (intros Hl; by rewrite Hl in Hf).
  assert (Hidx : match currentSong st with
                 | Some c => findIndex (sameId c) (library st)
                 | None => -1
                 end = -1).
  { destruct (currentSong st) as [c|] eqn:Hc; [|done].
    apply findIndex_from_absent. intros x Hx. unfold sameId.
    apply bool_decide_eq_false_2. by eapply Habs. }
  split.
  - rewrite getUpNext_ordered by done. unfold spec_orderedUpNext.
    rewrite Hq. unfold spec_libraryAfterCurrent.
    destruct (currentSong st) as [c|]; [|done].
    destruct (findIndex_cases (sameId c) (library st))
      as [(_ & _ & ->)|(n & Hn & _)]; [done|lia].
  - destruct (playNext_library_order st Hs Hq Hlib (-1) (eq_sym Hidx))
      as [(Hnil & _)|(s' & r' & Hcons & Hp & Hcur & _)];
      simpl in *; rewrite drop_0, filter_unskipped in *; [congruence|].
    rewrite Hf in Hcons. by injection Hcons as <- _.
Qed.

Lemma playNext_starts_at_library_top_witness :
  getUpNext (mkState [trackX; trackY] [] [] {[ "X" ]} None
               false false [] false 0%Q) = []
  ∧ currentSong (playNext (mkState [trackX; trackY] [] [] {[ "X" ]} None
                             false false [] false 0%Q)) = Some trackY
  ∧ isPlaying (playNext (mkState [trackX; trackY] [] [] {[ "X" ]} None
                           false false [] false 0%Q)) = true.
Proof.
  apply (playNext_starts_at_library_top
           (mkState [trackX; trackY] [] [] {[ "X" ]} None
              false false [] false 0%Q) trackY []);
    [reflexivity|reflexivity|discriminate|reflexivity].
Defined.

(** With shuffle on and an empty Shuffled Queue, [playNext] past its guard
    stops playback; it keeps the Current Track and does not look at the
    Manual Queue, whatever it holds. *)
Theorem playNext_shuffled_exhausted :
  ∀ st : State,
    isShuffled st = true →
    shuffledQueue st = [] →
    is_Some (currentSong st) ∨ library st ≠ [] →
    isPlaying (playNext st) = false
    ∧ currentSong (playNext st) = currentSong st
    ∧ queue (playNext st) = queue st
    ∧ library (playNext st) = library st.
Proof.
  intros st Hs Hq Hg. unfold playNext.
  rewrite (playNext_unguarded st Hg), Hs, Hq.
  destruct (currentSong st) eqn:Hc; simpl; by rewrite ?Hc.
Qed.

Lemma playNext_shuffled_exhausted_witness :
  isPlaying (playNext (mkState [trackX] [trackA] [] ∅ (Some trackX)
                         true false [] true 0%Q)) = false
  ∧ currentSong (playNext (mkState [trackX] [trackA] [] ∅ (Some trackX)
                             true false [] true 0%Q)) = Some trackX
  ∧ queue (playNext (mkState [trackX] [trackA] [] ∅ (Some trackX)
                       true false [] true 0%Q)) = [trackA]
  ∧ library (playNext (mkState [trackX] [trackA] [] ∅ (Some trackX)
                         true false [] true 0%Q)) = [trackX].
Proof.
  apply (playNext_shuffled_exhausted
           (mkState [trackX] [trackA] [] ∅ (Some trackX) true false [] true 0%Q));
    [reflexivity|reflexivity|left; eexists; reflexivity].
Defined.

(** ** What navigation leaves alone *)

Lemma playNext_fields :
  ∀ st : State,
    library (playNext st) = library st
    ∧ skippedTracks (playNext st) = skippedTracks st
    ∧ isShuffled (playNext st) = isShuffled st
    ∧ isRepeat (playNext st) = isRepeat st
    ∧ queue (playNext st) `sublist_of` queue st
    ∧ shuffledQueue (playNext st) `sublist_of` shuffledQueue st
    ∧ (history (playNext st) = history st
       ∨ ∃ c, currentSong st = Some c ∧ history (playNext st) = history st ++ [c]).
Proof.
  intros st. unfold playNext. destruct (_ && _); [by repeat split; [..|left]|].
  assert (Hh : ∀ st1,
             st1 = match currentSong st with
                   | Some c => setHistory (history st ++ [c]) st
                   | None => st
                   end →
             library st1 = library st ∧ skippedTracks st1 = skippedTracks st
             ∧ isShuffled st1 = isShuffled st ∧ isRepeat st1 = isRepeat st
             ∧ queue st1 = queue st ∧ shuffledQueue st1 = shuffledQueue st
             ∧ (history st1 = history st
                ∨ ∃ c, currentSong st = Some c ∧ history st1 = history st ++ [c])).
  { intros st1 ->. destruct (currentSong st) as [c|]; simpl;
      repeat split; eauto. }
  set (st1 := match currentSong st with
              | Some c => setHistory (history st ++ [c]) st
              | None => st
              end) in *.
  destruct (Hh st1 eq_refl) as (Hl & Hk & Hsh & Hr & Hq & Hsq & Hhist).
  clearbody st1. clear Hh.
  destruct (isShuffled st).
  - destruct (shuffledQueue st) as [|s rest] eqn:Hsq0; simpl.
    + rewrite Hq, Hsq. by repeat split.
    + rewrite Hq, Hsq, slice_from_1.
      repeat split; try done; [apply sublist_filter|by apply sublist_cons].
  - destruct (queue st) as [|s rest] eqn:Hq0.
    + destruct (_ =? _); [simpl; rewrite Hq, Hsq; by repeat split|].
      destruct (_ <? _); simpl; rewrite Hq, Hsq; by repeat split.
    + simpl. rewrite Hq, Hsq, slice_from_1.
      repeat split; try done. by apply sublist_cons.
Qed.

Lemma playPrevious_fields :
  ∀ st : State,
    library (playPrevious st) = library st
    ∧ skippedTracks (playPrevious st) = skippedTracks st
    ∧ queue (playPrevious st) = queue st
    ∧ shuffledQueue (playPrevious st) = shuffledQueue st
    ∧ isShuffled (playPrevious st) = isShuffled st
    ∧ isRepeat (playPrevious st) = isRepeat st
    ∧ history (playPrevious st) `prefix_of` history st.
Proof.
  intros st. unfold playPrevious.
  destruct (currentSong st); [|by repeat split].
  destruct (pastRestartThreshold _); [by repeat split|].
  destruct (_ <? _).
  - simpl. repeat split; try done. unfold slice_init. apply prefix_take.
  - destruct (_ <? _); [|by repeat split].
    destruct (_ <? _); by repeat split.
Qed.

(** [playNext] never changes the Library, the Skipped Set or the two mode
    flags; the two queues only lose entries, and the History gains at most
    the track that was loaded. *)
Theorem playNext_frame_rule :
  ∀ st : State,
    library (playNext st) = library st
    ∧ skippedTracks (playNext st) = skippedTracks st
    ∧ isShuffled (playNext st) = isShuffled st
    ∧ isRepeat (playNext st) = isRepeat st
    ∧ queue (playNext st) `sublist_of` queue st
    ∧ shuffledQueue (playNext st) `sublist_of` shuffledQueue st
    ∧ (history (playNext st) = history st
       ∨ ∃ c, currentSong st = Some c ∧ history (playNext st) = history st ++ [c]).
Proof. exact playNext_fields. Qed.

(** [playPrevious] never changes the Library, the Skipped Set, the Manual
    Queue, the Shuffled Queue or the two mode flags, and never adds to the
    History. *)
Theorem playPrevious_frame_rule :
  ∀ st : State,
    library (playPrevious st) = library st
    ∧ skippedTracks (playPrevious st) = skippedTracks st
    ∧ queue (playPrevious st) = queue st
    ∧ shuffledQueue (playPrevious st) = shuffledQueue st
    ∧ isShuffled (playPrevious st) = isShuffled st
    ∧ isRepeat (playPrevious st) = isRepeat st
    ∧ history (playPrevious st) `prefix_of` history st.
Proof. exact playPrevious_fields. Qed.

(** ** playPrevious without a History *)

(** With an empty History and within the first three seconds, [playPrevious]
    steps to the Library track just before the first one carrying the Current
    Track's identifier; when that one is the first Library track, or no
    Library track carries the identifier, the state stays as it is. *)
Theorem playPrevious_library_order :
  ∀ (st : State) (c : Song),
    currentSong st = Some c →
    history st = [] →
    (currentTime st <= 3)%Q →
    (∀ l1 p x l2,
        library st = l1 ++ p :: x :: l2 →
        Song.id x = Song.id c →
        (∀ y, y ∈ l1 ++ [p] → Song.id y ≠ Song.id c) →
        currentSong (playPrevious st) = Some p
        ∧ isPlaying (playPrevious st) = true)
    ∧ (∀ x l2,
        library st = x :: l2 → Song.id x = Song.id c → playPrevious st = st)
    ∧ ((∀ y, y ∈ library st → Song.id y ≠ Song.id c) → playPrevious st = st).
Proof.
  intros st c Hc Hh Ht.
  assert (Hpre : ∀ idx, findIndex (sameId c) (library st) = idx →
            playPrevious st =
              if 0 <? Z.of_nat (length (library st)) then
                if 0 <? idx then
                  setIsPlaying true
                    (setCurrentSong (at_index (library st) (idx - 1)) st)
                else st
              else st).
  { intros idx <-. unfold playPrevious, pastRestartThreshold.
    apply Qle_bool_iff in Ht. by rewrite Hc, Ht, Hh. }
  split; [|split].
  - intros l1 p x l2 Hlib Hx Hfirst.
    assert (Hidx : findIndex (sameId c) (library st) = Z.of_nat (length (l1 ++ [p]))).
    { rewrite Hlib. rewrite (cons_middle p), app_assoc. unfold findIndex.
      rewrite findIndex_from_first; [lia| |by apply bool_decide_eq_true_2].
      intros y Hy. apply bool_decide_eq_false_2. by apply Hfirst. }
    rewrite (Hpre _ Hidx). rewrite length_app in *. simpl length in *.
    destruct (Z.ltb_spec 0 (Z.of_nat (length (library st)))) as [_|Hl].
    2:{ rewrite Hlib, length_app in Hl. simpl in Hl. lia. }
    destruct (Z.ltb_spec 0 (Z.of_nat (length l1 + 1))); [|lia].
    replace (Z.of_nat (length l1 + 1) - 1) with (Z.of_nat (length l1)) by lia.
    rewrite at_index_nat, Hlib, list_lookup_middle by done. done.
  - intros x l2 Hlib Hx.
    assert (Hidx : findIndex (sameId c) (library st) = 0).
    { rewrite Hlib. unfold findIndex. simpl. unfold sameId.
      by rewrite bool_decide_eq_true_2. }
    rewrite (Hpre _ Hidx). simpl. by destruct (_ <? _).
  - intros Habs.
    assert (Hidx : findIndex (sameId c) (library st) = -1).
    { apply findIndex_from_absent. intros y Hy.
      apply bool_decide_eq_false_2. by apply Habs. }
    rewrite (Hpre _ Hidx). simpl. by destruct (_ <? _).
Qed.

Lemma playPrevious_library_order_witness :
  currentSong (playPrevious (mkState [trackX; trackY; trackZ] [] [] ∅
                               (Some trackZ) false false [] false 2%Q))
  = Some trackY.
Proof.
  destruct (playPrevious_library_order
              (mkState [trackX; trackY; trackZ] [] [] ∅
                 (Some trackZ) false false [] false 2%Q) trackZ)
    as (Hstep & _ & _); [reflexivity|reflexivity|discriminate|].
  destruct (Hstep [trackX] trackY trackZ []) as [Hcur _];
    [reflexivity|reflexivity| |exact Hcur].
  intros y Hy. apply list_elem_of_In in Hy. simpl in Hy.
  destruct Hy as [<-|[<-|[]]]; discriminate.
Defined.

(** ** Queueing a track *)

Lemma autoQueue_setQueue q st : autoQueue (setQueue q st) = autoQueue st.
Proof. done. Qed.

(** A queued track shows up in the up-next list right behind the Manual
    Queue entries and ahead of the Library tracks when shuffle is off, and at
    the very end when shuffle is on. *)
Theorem handleAddToQueue_upNext :
  ∀ (song : Song) (st : State),
    getUpNext (handleAddToQueue song st) =
      if isShuffled st then getUpNext st ++ [song]
      else queue st ++ song :: drop (length (queue st)) (getUpNext st).
Proof.
  intros song st. unfold handleAddToQueue, getUpNext.
  destruct (isShuffled st) eqn:Hs; simpl; rewrite Hs; [done|].
  rewrite drop_app_length, <- app_assoc. done.
Qed.

(** With shuffle off, removing the up-next entry just added gives back the
    state from before the addition. *)
Theorem handleAddToQueue_remove_roundtrip :
  ∀ (song : Song) (st : State),
    isShuffled st = false →
    handleRemoveFromUpNext (Z.of_nat (length (queue st)))
      (handleAddToQueue song st) = st.
Proof.
  intros song st Hs. unfold handleAddToQueue, handleRemoveFromUpNext.
  rewrite Hs. simpl. rewrite Hs, length_app. simpl.
  destruct (Z.ltb_spec (Z.of_nat (length (queue st)))
              (Z.of_nat (length (queue st) + 1))); [|lia].
  rewrite dropIndex_in_range by (rewrite length_app; simpl; lia).
  rewrite Nat2Z.id.
  replace (delete (length (queue st)) (queue st ++ [song])) with (queue st).
  - by destruct st.
  - rewrite delete_take_drop, take_app_length.
    rewrite drop_ge by (rewrite length_app; simpl; lia). by rewrite app_nil_r.
Qed.

Lemma handleAddToQueue_remove_roundtrip_witness :
  handleRemoveFromUpNext 1 (handleAddToQueue trackB removal_scenario)
  = removal_scenario.
Proof.
  apply (handleAddToQueue_remove_roundtrip trackB removal_scenario).
  reflexivity.
Defined.

(** With shuffle on, removing the up-next entry just added takes it out of the
    Shuffled Queue only: the Manual Queue keeps it, so it is back in the
    up-next list once shuffle is switched off. *)
Theorem handleAddToQueue_remove_shuffled :
  ∀ (song : Song) (st : State) (rnd : nat → sample),
    isShuffled st = true →
    handleRemoveFromUpNext (Z.of_nat (length (shuffledQueue st)))
      (handleAddToQueue song st)
    = setQueue (queue st ++ [song]) st
    ∧ song ∈ getUpNext
               (toggleShuffle rnd
                  (handleRemoveFromUpNext (Z.of_nat (length (shuffledQueue st)))
                     (handleAddToQueue song st))).
Proof.
  intros song st rnd Hs.
  assert (Heq : handleRemoveFromUpNext (Z.of_nat (length (shuffledQueue st)))
                  (handleAddToQueue song st)
                = setQueue (queue st ++ [song]) st).
  { unfold handleAddToQueue, handleRemoveFromUpNext. rewrite Hs. simpl.
    rewrite Hs. rewrite dropIndex_in_range by (rewrite length_app; simpl; lia).
    rewrite Nat2Z.id, delete_take_drop, take_app_length.
    rewrite drop_ge by (rewrite length_app; simpl; lia).
    rewrite app_nil_r. by destruct st. }
  split; [done|]. rewrite Heq.
  unfold toggleShuffle, getUpNext. simpl. rewrite Hs. simpl.
  apply elem_of_app. left. apply elem_of_app. right. by left.
Qed.

Lemma handleAddToQueue_remove_shuffled_witness :
  trackB ∈ getUpNext
             (toggleShuffle (λ _, half)
                (handleRemoveFromUpNext 1
                   (handleAddToQueue trackB
                      (mkState [trackX] [] [] ∅ (Some trackX)
                         true false [trackA] true 0%Q)))).
Proof.
  apply (handleAddToQueue_remove_shuffled trackB
           (mkState [trackX] [] [] ∅ (Some trackX) true false [trackA] true 0%Q)
           (λ _, half)).
  reflexivity.
Defined.

(** ** Picking a track in the library view *)

Lemma filter_all {A : Type} (P : A → Prop) `{!∀ x, Decision (P x)} (l : list A) :
  (∀ x, P x) → filter P l = l.
Proof.
  intros HP. induction l as [|x l IH]; [done|].
  by rewrite filter_cons_True, IH.
Qed.

(** After [handlePlayFromLibrary] the picked track is loaded and playing,
    shuffle is off, the Skipped Set is empty, and the up-next list is the
    Manual Queue followed by every Library track behind the first one that
    carries the picked track's identifier -- tracks removed earlier are back. *)
Theorem handlePlayFromLibrary_upNext :
  ∀ (song : Song) (st : State),
    currentSong (handlePlayFromLibrary song st) = Some song
    ∧ isPlaying (handlePlayFromLibrary song st) = true
    ∧ isShuffled (handlePlayFromLibrary song st) = false
    ∧ skippedTracks (handlePlayFromLibrary song st) = ∅
    ∧ getUpNext (handlePlayFromLibrary song st)
      = queue st ++ tracksAfter (sameId song) (library st).
Proof.
  intros song st. repeat split.
  rewrite getUpNext_ordered by done.
  unfold spec_orderedUpNext, spec_libraryAfterCurrent, handlePlayFromLibrary.
  destruct (currentSong st); simpl; f_equal;
    apply filter_all; intros x; apply not_elem_of_empty.
Qed.

(** Picking a track while another one is loaded and then pressing previous
    within three seconds returns to that one and to the History as it was. *)
Theorem handlePlayFromLibrary_previous_roundtrip :
  ∀ (song c : Song) (t : Q) (st : State),
    currentSong st = Some c →
    (t <= 3)%Q →
    currentSong (playPrevious (onTimeUpdate t (handlePlayFromLibrary song st)))
      = Some c
    ∧ history (playPrevious (onTimeUpdate t (handlePlayFromLibrary song st)))
      = history st.
Proof.
  intros song c t st Hc Ht.
  apply playPrevious_pops; [done|by eexists|].
  unfold handlePlayFromLibrary. by rewrite Hc.
Qed.

Lemma handlePlayFromLibrary_previous_roundtrip_witness :
  currentSong (playPrevious (onTimeUpdate 1%Q
                               (handlePlayFromLibrary trackZ removal_scenario)))
    = Some trackX
  ∧ history (playPrevious (onTimeUpdate 1%Q
                             (handlePlayFromLibrary trackZ removal_scenario)))
    = [].
Proof.
  apply (handlePlayFromLibrary_previous_roundtrip trackZ trackX 1%Q
           removal_scenario); [reflexivity|discriminate].
Defined.

(** ** Uploading *)

Lemma autoQueue_upload song c st :
  currentSong st = Some c →
  autoQueue (setLibrary (song :: library st) st)
  = if sameId c song then library st else autoQueue st.
Proof.
  intros Hc. rewrite !autoQueue_spec. unfold spec_libraryAfterCurrent. simpl.
  rewrite Hc. by destruct (sameId c song).
Qed.

(** An upload puts the new track at the front of the Library.  Whether it
    also loads the track is decided by the Current Track read when the upload
    was started.  If a track was loaded then, the Current Track and the
    playing flag are left as they are on completion, and the up-next list
    stays the same unless the track loaded on completion carries the new
    track's identifier.  If nothing was loaded then, the new track is loaded
    and played on completion, whatever was loaded meanwhile, and with shuffle
    off the up-next list is the Manual Queue followed by the former Library
    minus skipped tracks. *)
Theorem handleUpload_upNext :
  ∀ (captured : option Song) (song : Song) (st : State),
    library (handleUpload captured song st) = song :: library st
    ∧ (is_Some captured →
         currentSong (handleUpload captured song st) = currentSong st
         ∧ isPlaying (handleUpload captured song st) = isPlaying st
         ∧ ((∀ c, currentSong st = Some c → Song.id song ≠ Song.id c) →
            getUpNext (handleUpload captured song st) = getUpNext st))
    ∧ (captured = None →
         currentSong (handleUpload captured song st) = Some song
         ∧ isPlaying (handleUpload captured song st) = true
         ∧ (isShuffled st = false →
            getUpNext (handleUpload captured song st)
            = queue st ++
              filter (λ s, Song.id s ∉ skippedTracks st) (library st))).
Proof.
  intros captured song st. split; [|split].
  - unfold handleUpload. by destruct captured.
  - intros [c0 ->]. unfold handleUpload. split; [done|]. split; [done|].
    intros Hne. unfold getUpNext. simpl. destruct (isShuffled st); [done|].
    destruct (currentSong st) as [c|] eqn:Hc.
    + rewrite (autoQueue_upload song c st Hc). unfold sameId.
      rewrite bool_decide_eq_false_2; [done|by apply Hne].
    + unfold autoQueue. simpl. by rewrite Hc.
  - intros ->. unfold handleUpload. split; [done|]. split; [done|].
    intros Hs. rewrite getUpNext_ordered by done.
    unfold spec_orderedUpNext, spec_libraryAfterCurrent. simpl.
    unfold sameId. by rewrite bool_decide_eq_true_2.
Qed.

(** ** Ending the session *)

(** After the session reset the up-next list is empty and [playNext] and
    [playPrevious] do nothing; the reset itself keeps the repeat flag and is
    idempotent. *)
Theorem clearSession_inert :
  ∀ st : State,
    getUpNext (clearSession st) = []
    ∧ playNext (clearSession st) = clearSession st
    ∧ playPrevious (clearSession st) = clearSession st
    ∧ isRepeat (clearSession st) = isRepeat st
    ∧ clearSession (clearSession st) = clearSession st.
Proof. intros st. by repeat split. Qed.

(** ** Removing from the up-next list, seen through the list itself *)

Lemma filter_all_in {A : Type} (P : A → Prop) `{!∀ x, Decision (P x)}
    (l : list A) :
  (∀ x, x ∈ l → P x) → filter P l = l.
Proof.
  induction l as [|x l IH]; intros HP; [done|].
  rewrite filter_cons_True by (apply HP; left).
  rewrite IH; [done|]. intros y Hy. apply HP. by right.
Qed.

(** In a list whose keys are pairwise distinct, filtering out the key of the
    entry at position [n] deletes exactly that position. *)
Lemma filter_key_delete {A K : Type} `{EqDecision K} (f : A → K)
    (l : list A) (n : nat) (s : A) :
  NoDup (f <$> l) → l !! n = Some s →
  filter (λ x, f x ≠ f s) l = delete n l.
Proof.
  revert n. induction l as [|x l IH]; intros n Hnd Hn; [done|].
  rewrite fmap_cons in Hnd. apply NoDup_cons in Hnd as [Hx Hnd].
  destruct n as [|n]; simpl in Hn.
  - injection Hn as ->. rewrite filter_cons_False by (intros H; by apply H).
    simpl. apply filter_all_in. intros y Hy Heq. apply Hx.
    rewrite <- Heq. by apply list_elem_of_fmap_2.
  - rewrite filter_cons_True.
    + simpl. f_equal. by apply IH.
    + intros Heq. apply Hx. rewrite Heq. apply list_elem_of_fmap_2.
      by eapply list_elem_of_lookup_2.
Qed.

Lemma upNext_library_part st :
  isShuffled st = false →
  drop (length (queue st)) (getUpNext st)
  = filter (λ s, unskipped (skippedTracks st) s) (autoQueue st)
  ∧ drop (length (queue st)) (getUpNext st) `sublist_of` library st.
Proof.
  intros Hs. unfold getUpNext. rewrite Hs, drop_app_length. split; [done|].
  etrans; [apply sublist_filter|]. rewrite autoQueue_spec.
  unfold spec_libraryAfterCurrent. destruct (currentSong st) as [c|];
    [|apply sublist_nil_l].
  destruct (findIndex_cases (sameId c) (library st))
    as [(_ & _ & ->)|(n & _ & _ & ->)]; [apply sublist_nil_l|apply sublist_drop].
Qed.

(** What the removal does to the up-next list with shuffle off and an index
    behind the Manual Queue: the library part loses every entry that carries
    the identifier of the entry at that index. *)
Lemma handleRemoveFromUpNext_library_part st index s :
  isShuffled st = false →
  Z.of_nat (length (queue st)) ≤ index →
  getUpNext st !! Z.to_nat index = Some s →
  getUpNext (handleRemoveFromUpNext index st)
  = queue st ++
    filter (λ x, Song.id x ≠ Song.id s) (drop (length (queue st)) (getUpNext st)).
Proof.
  intros Hs Hge Hsong. unfold handleRemoveFromUpNext. rewrite Hs.
  destruct (Z.ltb_spec index (Z.of_nat (length (queue st)))); [lia|].
  unfold at_index. destruct (Z.ltb_spec index 0); [lia|]. rewrite Hsong.
  rewrite getUpNext_setSkippedTracks by done.
  destruct (upNext_library_part st Hs) as [-> _]. f_equal.
  rewrite list_filter_filter. apply list_filter_iff. intros x.
  unfold unskipped. rewrite !negb_True, !bool_decide_spec.
  rewrite not_elem_of_union, not_elem_of_singleton. done.
Qed.

(** When the Library identifiers are pairwise distinct, removing an index
    inside the up-next list deletes exactly the entry shown at that index. *)
Theorem handleRemoveFromUpNext_deletes_entry :
  ∀ (st : State) (index : Z),
    NoDup (ids (library st)) →
    0 ≤ index < Z.of_nat (length (getUpNext st)) →
    getUpNext (handleRemoveFromUpNext index st)
    = delete (Z.to_nat index) (getUpNext st).
Proof.
  intros st index Hnd Hr. destruct (isShuffled st) eqn:Hs.
  - unfold handleRemoveFromUpNext, getUpNext in *. rewrite Hs in *. simpl.
    rewrite Hs. by apply dropIndex_in_range.
  - destruct (Z.ltb_spec index (Z.of_nat (length (queue st)))) as [Hlt|Hge].
    + unfold handleRemoveFromUpNext, getUpNext. rewrite Hs.
      destruct (Z.ltb_spec index (Z.of_nat (length (queue st)))); [|lia].
      simpl. rewrite Hs, dropIndex_in_range by lia.
      rewrite !delete_take_drop.
      rewrite take_app_le, drop_app_le by lia. by rewrite app_assoc.
    + destruct (lookup_lt_is_Some_2 (getUpNext st) (Z.to_nat index))
        as [s Hsong]; [lia|].
      rewrite (handleRemoveFromUpNext_library_part st index s) by done.
      destruct (upNext_library_part st Hs) as [_ Hsub].
      set (r := drop (length (queue st)) (getUpNext st)) in *.
      assert (Hup : getUpNext st = queue st ++ r).
      { unfold r, getUpNext. by rewrite Hs, drop_app_length. }
      rewrite Hup in Hsong |- *.
      rewrite lookup_app_r in Hsong by lia.
      rewrite (filter_key_delete Song.id r
                 (Z.to_nat index - length (queue st))%nat s); [| |done].
      * rewrite !delete_take_drop.
        rewrite take_app_ge, drop_app_ge by lia. rewrite <- app_assoc.
        repeat f_equal; lia.
      * apply (sublist_NoDup _ (ids (library st))); [exact Hnd|].
        unfold ids. by apply fmap_sublist.
Qed.

Lemma handleRemoveFromUpNext_deletes_entry_witness :
  getUpNext (handleRemoveFromUpNext 2 removal_scenario) = [trackA; trackY].
Proof.
  apply (handleRemoveFromUpNext_deletes_entry removal_scenario 2).
  - change (NoDup ["X"; "Y"; "Z"]). by apply (bool_decide_unpack _).
  - split; [lia|]. change (2 < 3). lia.
Defined.

(** Removing an index inside the up-next list always makes the list
    shorter, also when several Library tracks share an identifier. *)
Theorem handleRemoveFromUpNext_shortens :
  ∀ (st : State) (index : Z),
    0 ≤ index < Z.of_nat (length (getUpNext st)) →
    (length (getUpNext (handleRemoveFromUpNext index st))
     < length (getUpNext st))%nat.
Proof.
  intros st index Hr. destruct (isShuffled st) eqn:Hs.
  - unfold handleRemoveFromUpNext, getUpNext in *. rewrite Hs in *. simpl.
    rewrite Hs, dropIndex_in_range by done.
    destruct (lookup_lt_is_Some_2 (shuffledQueue st) (Z.to_nat index))
      as [s Hsong]; [lia|].
    rewrite length_delete by eauto. lia.
  - destruct (Z.ltb_spec index (Z.of_nat (length (queue st)))) as [Hlt|Hge].
    + unfold handleRemoveFromUpNext, getUpNext. rewrite Hs.
      destruct (Z.ltb_spec index (Z.of_nat (length (queue st)))); [|lia].
      simpl. rewrite Hs, dropIndex_in_range by lia. rewrite !length_app.
      destruct (lookup_lt_is_Some_2 (queue st) (Z.to_nat index))
        as [s Hsong]; [lia|].
      rewrite length_delete, autoQueue_setQueue by eauto. lia.
    + destruct (lookup_lt_is_Some_2 (getUpNext st) (Z.to_nat index))
        as [s Hsong]; [lia|].
      rewrite (handleRemoveFromUpNext_library_part st index s) by done.
      set (r := drop (length (queue st)) (getUpNext st)) in *.
      assert (Hup : getUpNext st = queue st ++ r).
      { unfold r, getUpNext. by rewrite Hs, drop_app_length. }
      rewrite Hup in Hsong |- *.
      rewrite lookup_app_r in Hsong by lia.
      rewrite !length_app. apply Nat.add_lt_mono_l.
      eapply length_filter_lt; [by eapply list_elem_of_lookup_2|].
      intros H. by apply H.
Qed.

Lemma handleRemoveFromUpNext_shortens_witness :
  (length (getUpNext (handleRemoveFromUpNext 0 removal_scenario))
   < length (getUpNext removal_scenario))%nat.
Proof.
  apply (handleRemoveFromUpNext_shortens removal_scenario 0).
  split; [lia|]. change (0 < 3). lia.
Defined.

(** ** Invariants of the reachable states *)

Lemma handleRemoveFromUpNext_shuffle_fields index st :
  isShuffled (handleRemoveFromUpNext index st) = isShuffled st
  ∧ (isShuffled st = false →
     shuffledQueue (handleRemoveFromUpNext index st) = shuffledQueue st).
Proof.
  unfold handleRemoveFromUpNext. destruct (isShuffled st) eqn:Hs; [done|].
  destruct (_ <? _); [done|]. by destruct (at_index _ _).
Qed.

Lemma handle_shuffle_off_inv e st :
  (isShuffled st = false → shuffledQueue st = []) →
  isShuffled (handle e st) = false → shuffledQueue (handle e st) = [].
Proof.
  intros Hinv. destruct e; cbn [handle].
  - destruct (playNext_fields st) as (_ & _ & -> & _ & _ & Hsub & _).
    intros Hs. rewrite (Hinv Hs) in Hsub. by apply sublist_nil_r.
  - destruct (playPrevious_fields st) as (_ & _ & _ & -> & -> & _). done.
  - unfold handleAddToQueue. destruct (isShuffled st) eqn:Hs; simpl;
      rewrite Hs; [done|by intros _; apply Hinv].
  - destruct (handleRemoveFromUpNext_shuffle_fields index st) as [-> Hq].
    intros Hs. rewrite Hq by done. by apply Hinv.
  - unfold toggleShuffle. by destruct (isShuffled st).
  - done.
  - done.
  - done.
  - done.
  - done.
  - unfold handleUpload. by destruct captured.
  - done.
  - unfold handleSongEnd. destruct (_ && _); [done|].
    destruct (playNext_fields st) as (_ & _ & -> & _ & _ & Hsub & _).
    intros Hs. rewrite (Hinv Hs) in Hsub. by apply sublist_nil_r.
  - unfold handleAudioError.
    destruct (playNext_fields st) as (_ & _ & -> & _ & _ & Hsub & _).
    intros Hs. rewrite (Hinv Hs) in Hsub. by apply sublist_nil_r.
  - done.
Qed.

Lemma reachable_shuffle_off_inv allowed st :
  reachable_via allowed st → isShuffled st = false → shuffledQueue st = [].
Proof.
  induction 1 as [|st e _ IH _]; [done|by apply handle_shuffle_off_inv].
Qed.

(** In every state reached from the initial render, the Shuffled Queue is
    empty whenever shuffle is off. *)
Theorem shuffledQueue_empty_when_off :
  ∀ st : State,
    reachable st → isShuffled st = false → shuffledQueue st = [].
Proof. intros st. apply reachable_shuffle_off_inv. Qed.

Lemma shuffledQueue_empty_when_off_witness :
  shuffledQueue
    (run [RefreshLibrary [trackX; trackY; trackZ]; PlayFromLibrary trackX;
          ToggleShuffle (λ _, half); PlayNext; ToggleShuffle (λ _, half)]
       initialState) = [].
Proof.
  apply shuffledQueue_empty_when_off; [apply reachable_run_all|reflexivity].
Defined.

(** In every state reached from the initial render, a non-empty History
    comes with a loaded track: every handler that unloads the Current Track
    also empties the History. *)
Theorem history_requires_current_track :
  ∀ st : State,
    reachable st → history st ≠ [] → is_Some (currentSong st).
Proof.
  intros st Hreach Hh. destruct (currentSong st) eqn:Hc; [by eexists|].
  exfalso. apply Hh. by apply (reachable_history_inv _ st Hreach).
Qed.

Lemma history_requires_current_track_witness :
  is_Some (currentSong (playNext lifo_scenario)).
Proof.
  apply history_requires_current_track.
  - apply (reachable_run [PlayNext]). apply reachable_run_all.
  - discriminate.
Defined.

(** ** Switching shuffle on and off again *)

(** In every reachable state with shuffle off, switching shuffle on and then
    off again gives back the same state, whatever was drawn. *)
Theorem toggleShuffle_on_off :
  ∀ (rnd1 rnd2 : nat → sample) (st : State),
    reachable st →
    isShuffled st = false →
    toggleShuffle rnd2 (toggleShuffle rnd1 st) = st.
Proof.
  intros rnd1 rnd2 st Hreach Hs.
  pose proof (reachable_shuffle_off_inv _ st Hreach Hs) as Hq.
  unfold toggleShuffle. rewrite Hs. simpl. destruct st. simpl in *. by subst.
Qed.

Lemma toggleShuffle_on_off_witness :
  toggleShuffle (λ _, tenth) (toggleShuffle (λ _, half) lifo_scenario)
  = lifo_scenario.
Proof.
  apply toggleShuffle_on_off; [apply reachable_run_all|reflexivity].
Defined.

(** ** Playing through a shuffle session *)

Lemma filter_none {A : Type} (P : A → Prop) `{!∀ x, Decision (P x)}
    (l : list A) :
  (∀ x, x ∈ l → ¬ P x) → filter P l = [].
Proof.
  induction l as [|x l IH]; intros HP; [done|].
  rewrite filter_cons_False by (apply HP; left).
  apply IH. intros y Hy. apply HP. by right.
Qed.

(** One [playNext] in shuffle mode, field by field. *)
Lemma playNext_shuffled_fields st s rest :
  isShuffled st = true →
  shuffledQueue st = s :: rest →
  is_Some (currentSong st) ∨ library st ≠ [] →
  isShuffled (playNext st) = true
  ∧ shuffledQueue (playNext st) = rest
  ∧ currentSong (playNext st) = Some s
  ∧ queue (playNext st) = filter (λ x, Song.id x ≠ Song.id s) (queue st)
  ∧ library (playNext st) = library st.
Proof.
  intros Hs Hq Hg. unfold playNext.
  rewrite (playNext_unguarded st Hg), Hs, Hq.
  assert (Hf : filter (λ x, otherId s x) (queue st)
               = filter (λ x, Song.id x ≠ Song.id s) (queue st)).
  { apply list_filter_iff. intros x. unfold otherId, sameId.
    by rewrite negb_True, bool_decide_spec. }
  destruct (currentSong st); simpl; rewrite Hs, Hq, slice_from_1, Hf; done.
Qed.

Lemma playNext_times_shuffled sq :
  ∀ st,
    isShuffled st = true →
    shuffledQueue st = sq →
    is_Some (currentSong st) ∨ library st ≠ [] →
    isShuffled (playNext_times (length sq) st) = true
    ∧ shuffledQueue (playNext_times (length sq) st) = []
    ∧ queue (playNext_times (length sq) st)
      = filter (λ x, Song.id x ∉ ids sq) (queue st).
Proof.
  induction sq as [|s rest IH]; intros st Hs Hq Hg.
  - simpl. split; [done|]. split; [done|]. symmetry. apply filter_all.
    intros x. apply not_elem_of_nil.
  - destruct (playNext_shuffled_fields st s rest Hs Hq Hg)
      as (Hs' & Hq' & Hc' & Hqueue & Hlib).
    cbn [length playNext_times].
    destruct (IH (playNext st) Hs' Hq') as (Hs2 & Hq2 & Hqueue2).
    { left. rewrite Hc'. by eexists. }
    split; [done|]. split; [done|].
    rewrite Hqueue2, Hqueue, list_filter_filter. apply list_filter_iff.
    intros x. unfold ids. rewrite fmap_cons, not_elem_of_cons. tauto.
Qed.

(** Switching shuffle on and pressing next once per entry of the Shuffled
    Queue uses up the Shuffled Queue and leaves the Manual Queue empty:
    nothing queued by hand is left to play again when shuffle goes off. *)
Theorem shuffle_session_drains_manual_queue :
  ∀ (rnd : nat → sample) (st : State),
    isShuffled st = false →
    is_Some (currentSong st) ∨ library st ≠ [] →
    queue (playNext_times (length (shuffledQueue (toggleShuffle rnd st)))
             (toggleShuffle rnd st)) = []
    ∧ shuffledQueue
        (playNext_times (length (shuffledQueue (toggleShuffle rnd st)))
           (toggleShuffle rnd st)) = [].
Proof.
  intros rnd st Hs Hg.
  set (st1 := toggleShuffle rnd st).
  assert (Hs1 : isShuffled st1 = true) by (unfold st1, toggleShuffle; by rewrite Hs).
  assert (Hq1 : queue st1 = queue st) by (unfold st1, toggleShuffle; by rewrite Hs).
  assert (Hc1 : currentSong st1 = currentSong st ∧ library st1 = library st)
    by (unfold st1, toggleShuffle; by rewrite Hs).
  assert (Hin : ∀ x, x ∈ queue st → x ∈ shuffledQueue st1).
  { intros x Hx. unfold st1, toggleShuffle. rewrite Hs. simpl.
    rewrite fisherYates_Permutation. apply elem_of_app. by left. }
  destruct (playNext_times_shuffled (shuffledQueue st1) st1 Hs1 eq_refl)
    as (_ & Hsq & Hq).
  { destruct Hc1 as [-> ->]. done. }
  split; [|done]. rewrite Hq, Hq1. apply filter_none.
  intros x Hx Hout. apply Hout. unfold ids. apply list_elem_of_fmap_2. by apply Hin.
Qed.

Lemma shuffle_session_drains_manual_queue_witness :
  queue (playNext_times 3 (toggleShuffle (λ _, half) shuffle_scenario)) = [].
Proof.
  apply (shuffle_session_drains_manual_queue (λ _, half) shuffle_scenario).
  - reflexivity.
  - left. eexists. reflexivity.
Defined.

(** ** Pressing next at the end of the library *)

(** With shuffle off, an empty Manual Queue and every Library track behind
    the Current Track skipped (or none there), each further [playNext] keeps
    the Current Track and appends it to the History once more. *)
Theorem playNext_end_of_library_repeats :
  ∀ (st : State) (c : Song) (n : nat),
    isShuffled st = false →
    queue st = [] →
    currentSong st = Some c →
    (∀ (i : Z) (s : Song),
        findIndex (sameId c) (library st) < i →
        at_index (library st) i = Some s →
        Song.id s ∈ skippedTracks st) →
    currentSong (playNext_times n st) = Some c
    ∧ history (playNext_times n st) = history st ++ replicate n c.
Proof.
  intros st c n. revert st. induction n as [|n IH]; intros st Hs Hq Hc Hskip.
  - simpl. by rewrite app_nil_r.
  - cbn [playNext_times].
    destruct (playNext_fields st) as (Hl & Hk & Hsh & _ & Hqs & _ & _).
    pose proof (playNext_current_history st) as Hh. rewrite Hc in Hh.
    destruct Hh as [_ Hh].
    assert (Hcur : currentSong (playNext st) = Some c).
    { destruct (decide (library st = [])) as [Hlib|Hne].
      - unfold playNext. rewrite Hs, Hq, Hc, Hlib. by simpl; rewrite Hc.
      - destruct (playNext_library_order st Hs Hq Hne _ eq_refl)
          as [(_ & _ & Hsame)|(s' & r & Hf & _)]; [by rewrite Hsame|].
        exfalso. rewrite Hc in Hf.
        assert (Hin : s' ∈ filter (λ s, unskipped (skippedTracks st) s)
                           (drop (Z.to_nat (findIndex (sameId c) (library st) + 1))
                              (library st))) by (rewrite Hf; left).
        apply list_elem_of_filter in Hin as [Hu Hin].
        apply list_elem_of_lookup in Hin as [j Hj]. rewrite lookup_drop in Hj.
        pose proof (findIndex_lower (sameId c) (library st)).
        unfold unskipped in Hu. apply negb_True in Hu. apply Hu.
        apply bool_decide_pack.
        apply (Hskip (Z.of_nat (Z.to_nat (findIndex (sameId c) (library st) + 1) + j)));
          [lia|by rewrite at_index_nat]. }
    destruct (IH (playNext st)) as [Hc' Hh'].
    + by rewrite Hsh.
    + rewrite Hq in Hqs. by apply sublist_nil_r.
    + done.
    + rewrite Hl, Hk. done.
    + split; [done|]. rewrite Hh', Hh, <- app_assoc. done.
Qed.

Lemma playNext_end_of_library_repeats_witness :
  currentSong (playNext_times 3 end_scenario) = Some trackY
  ∧ history (playNext_times 3 end_scenario) = [trackY; trackY; trackY].
Proof.
  apply (playNext_end_of_library_repeats end_scenario trackY 3);
    [reflexivity|reflexivity|reflexivity|].
  intros i s Hi Hs. apply at_index_Some in Hs as [Hr _].
  change (1 < i) in Hi. change (0 ≤ i < 2) in Hr. lia.
Defined.

(** ** The shuffle loop and its draws *)

Lemma fisherYates_loop_ext (rnd rnd' : nat → sample) (i : nat) :
  ∀ k tracks,
    (∀ m, (k ≤ m < k + i)%nat → rnd m = rnd' m) →
    fisherYates_loop rnd k i tracks = fisherYates_loop rnd' k i tracks.
Proof.
  induction i as [|i IH]; intros k tracks Hagree; [done|].
  cbn [fisherYates_loop]. rewrite (Hagree k) by lia.
  apply IH. intros m Hm. apply Hagree. lia.
Qed.

(** The shuffle of [n] tracks draws [n - 1] random numbers and depends on
    nothing else; a list of at most one track is returned as it is, without
    a draw. *)
Theorem fisherYates_draws :
  ∀ (rnd rnd' : nat → sample) (tracks : list Song),
    ((∀ m, (m < length tracks - 1)%nat → rnd m = rnd' m) →
     fisherYates rnd tracks = fisherYates rnd' tracks)
    ∧ ((length tracks ≤ 1)%nat → fisherYates rnd tracks = tracks).
Proof.
  intros rnd rnd' tracks. split.
  - intros Hagree. apply fisherYates_loop_ext. intros m Hm. apply Hagree. lia.
  - intros Hlen. unfold fisherYates.
    by replace (length tracks - 1)%nat with 0%nat by lia.
Qed.

Lemma fisherYates_draws_witness :
  fisherYates (λ m, if decide (m < 2)%nat then half else tenth)
    [trackA; trackB; trackX]
  = fisherYates (λ _, half) [trackA; trackB; trackX].
Proof.
  apply (fisherYates_draws _ (λ _, half) [trackA; trackB; trackX]).
  intros m Hm. simpl in Hm. by rewrite decide_True by lia.
Defined.

Lemma Zpos_of_nat (n : nat) : n ≠ 0%nat → Z.pos (Pos.of_nat n) = Z.of_nat n.
Proof. intros Hn. by rewrite <- positive_nat_Z, Nat2Pos.id. Qed.

Lemma drawFor_range (j i : nat) :
  (j ≤ i)%nat →
  Qle_bool 0 (drawFor j i) && negb (Qle_bool 1 (drawFor j i)) = true.
Proof.
  intros Hji. apply andb_true_iff. split.
  - apply Qle_bool_iff. unfold drawFor, Qle. simpl. lia.
  - apply negb_true_iff. apply not_true_is_false. intros Hle.
    apply Qle_bool_iff in Hle. unfold drawFor, Qle in Hle. simpl in Hle.
    rewrite Zpos_of_nat in Hle by lia. lia.
Qed.

Lemma randomIndex_drawFor (j i : nat) (Hji : (j ≤ i)%nat) :
  randomIndex (mkSample (drawFor j i) (drawFor_range j i Hji)) i = Z.of_nat j.
Proof.
  unfold randomIndex, drawFor. cbn [sample_val].
  unfold Qfloor, Qmult, inject_Z. cbn [Qnum Qden].
  rewrite Pos.mul_1_r, Zpos_of_nat by lia.
  symmetry. apply Z.div_unique with (r := Z.of_nat i + 1); [lia|nia].
Qed.

Section swap_cells.
Context {A : Type}.
Implicit Types l : list A.

Lemma swap_lookup_upper l (i j : nat) a b :
  l !! i = Some a → l !! j = Some b →
  swap i (Z.of_nat j) l !! i = Some b.
Proof.
  intros Hi Hj. rewrite (swap_lookup l i (Z.of_nat j) a b Hi)
    by by rewrite at_index_nat.
  rewrite Nat2Z.id. pose proof (lookup_lt_Some _ _ _ Hi).
  destruct (decide (i = j)) as [->|Hne].
  - rewrite list_lookup_insert_eq by by rewrite length_insert. congruence.
  - rewrite list_lookup_insert_ne by done. by rewrite list_lookup_insert_eq.
Qed.

Lemma swap_drop l (i : nat) (j : Z) :
  j ≤ Z.of_nat i → drop (S i) (swap i j l) = drop (S i) l.
Proof.
  intros Hji. unfold swap. destruct (l !! i) as [a|]; [|done].
  destruct (at_index l j) as [b|] eqn:Hj; [|done].
  apply at_index_Some in Hj as [Hr _].
  rewrite !drop_insert_lt by lia. done.
Qed.
End swap_cells.

Lemma fisherYates_loop_reaches (i : nat) :
  ∀ k (tracks target : list Song),
    tracks ≡ₚ target →
    (i < length tracks)%nat →
    drop (S i) tracks = drop (S i) target →
    ∃ rnd : nat → sample, fisherYates_loop rnd k i tracks = target.
Proof.
  induction i as [|i IH]; intros k tracks target Hperm Hlen Hdrop.
  - exists (λ _, half). cbn [fisherYates_loop].
    pose proof (Permutation_length Hperm) as Hl.
    destruct tracks as [|x tracks]; [simpl in Hlen; lia|].
    destruct target as [|y target]; [done|].
    simpl in Hdrop. rewrite !drop_0 in Hdrop. subst target.
    by apply (inj (.:: tracks)) in Hperm as ->.
  - pose proof (Permutation_length Hperm) as Hl.
    destruct (lookup_lt_is_Some_2 target (S i)) as [x Hx]; [lia|].
    set (n := S (S i)) in *.
    assert (Htake : take n tracks ≡ₚ take n target).
    { apply (inj (.++ drop n target)). rewrite take_drop.
      rewrite <- Hdrop, take_drop. done. }
    assert (Hin : x ∈ take n tracks).
    { rewrite Htake. apply elem_of_take. exists (S i). split; [done|lia]. }
    apply elem_of_take in Hin as (j & Hj & Hjn).
    assert (Hji : (j ≤ S i)%nat) by lia.
    destruct (lookup_lt_is_Some_2 tracks (S i) Hlen) as [a Ha].
    set (u := mkSample (drawFor j (S i)) (drawFor_range j (S i) Hji)).
    assert (Hu : randomIndex u (S i) = Z.of_nat j) by apply randomIndex_drawFor.
    set (tracks' := swap (S i) (Z.of_nat j) tracks).
    assert (Hdrop' : drop (S i) tracks' = drop (S i) target).
    { rewrite (drop_S tracks' x (S i)), (drop_S target x (S i)) by
        (done || by eapply swap_lookup_upper).
      f_equal. unfold tracks'. rewrite swap_drop by lia. done. }
    destruct (IH (S k) tracks' target) as [rnd' Hrnd'].
    { unfold tracks'. by rewrite swap_Permutation. }
    { unfold tracks'. rewrite (Permutation_length (swap_Permutation _ _ _)). lia. }
    { done. }
    exists (λ m, if decide (m = k) then u else rnd' m).
    cbn [fisherYates_loop]. rewrite decide_True by done.
    rewrite Hu. fold tracks'.
    rewrite <- Hrnd'. apply fisherYates_loop_ext.
    intros m Hm. by rewrite decide_False by lia.
Qed.

(** Every ordering of the tracks is a possible result of the shuffle: for
    each rearrangement there is a sequence of draws that produces it. *)
Theorem fisherYates_reaches_every_order :
  ∀ tracks target : list Song,
    target ≡ₚ tracks →
    ∃ rnd : nat → sample, fisherYates rnd tracks = target.
Proof.
  intros tracks target Hperm. destruct tracks as [|x tracks].
  - apply Permutation_nil_r in Hperm as ->. by exists (λ _, half).
  - pose proof (Permutation_length Hperm) as Hl. unfold fisherYates.
    apply fisherYates_loop_reaches; [done|simpl; lia|].
    rewrite !drop_ge; [done|simpl in *; lia|simpl in *; lia].
Qed.

Lemma fisherYates_reaches_every_order_witness :
  ∃ rnd : nat → sample,
    fisherYates rnd [trackA; trackB; trackX] = [trackX; trackA; trackB].
Proof.
  apply (fisherYates_reaches_every_order
           [trackA; trackB; trackX] [trackX; trackA; trackB]).
  apply (Permutation_cons_append [trackA; trackB] trackX).
Defined.

(** ** The title taken from a file name *)

Lemma matchesExtension_cons c t :
  t ≠ EmptyString →
  matchesExtension (String c t) = Ascii.eqb c "."%char && allExtChars t.
Proof. intros Ht. by destruct t. Qed.

Lemma allExtChars_dot b ext : allExtChars (b +:+ String "."%char ext) = false.
Proof.
  induction b as [|c b IH]; simpl; [done|]. rewrite IH. apply andb_false_r.
Qed.

Lemma append_dot_nonempty b ext : b +:+ String "."%char ext ≠ EmptyString.
Proof. by destruct b. Qed.

Lemma string_length_append (s1 s2 : string) :
  String.length (s1 +:+ s2) = (String.length s1 + String.length s2)%nat.
Proof. induction s1 as [|c s1 IH]; simpl; [done|by rewrite IH]. Qed.

Lemma stripExtension_ending :
  ∀ base ext : string,
    ext ≠ EmptyString →
    allExtChars ext = true →
    stripExtension (base +:+ String "."%char ext) = base.
Proof.
  intros base ext Hne Hext. induction base as [|c base IH].
  - change (EmptyString +:+ String "."%char ext) with (String "."%char ext).
    cbn [stripExtension].
    rewrite matchesExtension_cons by done. by rewrite Hext.
  - change (String c base +:+ String "."%char ext)
      with (String c (base +:+ String "."%char ext)).
    cbn [stripExtension].
    rewrite matchesExtension_cons by apply append_dot_nonempty.
    rewrite allExtChars_dot, andb_false_r. by rewrite IH.
Qed.

(** A name that ends in a dot followed by one or more characters other than
    the dot and the slash loses exactly that ending. *)
Theorem stripExtension_strips :
  ∀ base ext : string,
    ext ≠ EmptyString →
    allExtChars ext = true →
    stripExtension (base +:+ String "."%char ext) = base.
Proof. intros base ext Hne Hext. by apply stripExtension_ending. Qed.

Lemma stripExtension_strips_witness :
  stripExtension "01 - Intro.final.mp3" = "01 - Intro.final".
Proof.
  apply (stripExtension_strips "01 - Intro.final" "mp3");
    [discriminate|reflexivity].
Defined.

(** A name stays as it is exactly when it has no such ending: no dot at all,
    a dot in last position, or a slash behind the last dot. *)
Theorem stripExtension_unchanged_iff :
  ∀ s : string,
    stripExtension s = s ↔
    ¬ ∃ base ext, s = base +:+ String "."%char ext
                  ∧ ext ≠ EmptyString ∧ allExtChars ext = true.
Proof.
  intros s. split.
  - intros Heq (base & ext & -> & Hne & Hext).
    rewrite stripExtension_ending in Heq by done.
    apply (f_equal String.length) in Heq.
    rewrite string_length_append in Heq. simpl in Heq. lia.
  - induction s as [|c s IH]; intros Hnone; [done|].
    cbn [stripExtension].
    destruct (matchesExtension (String c s)) eqn:Hm.
    + exfalso. apply Hnone. destruct s as [|d t]; [done|].
      cbn [matchesExtension] in Hm. apply andb_true_iff in Hm as [Hc Ht].
      apply Ascii.eqb_eq in Hc as ->.
      exists EmptyString, (String d t). by repeat split.
    + f_equal. apply IH. intros (base & ext & -> & Hne & Hext).
      apply Hnone. exists (String c base), ext. by repeat split.
Qed.

Lemma stripExtension_unchanged_iff_witness :
  stripExtension "README" = "README"
  ∧ stripExtension "track." = "track."
  ∧ stripExtension "v1.0/track" = "v1.0/track"
  ∧ stripExtension ".mp3" = "".
Proof.
  split; [|by repeat split].
  apply (proj2 (stripExtension_unchanged_iff "README")).
  intros (base & ext & Heq & _).
  assert (Hdot : allExtChars "README" = true) by reflexivity.
  rewrite Heq, allExtChars_dot in Hdot. discriminate.
Defined.

Lemma handleUpload_upNext_witness :
  currentSong (handleUpload (Some trackX) trackB removal_scenario) = Some trackX
  ∧ getUpNext (handleUpload (Some trackX) trackB removal_scenario)
    = [trackA; trackY; trackZ]
  ∧ currentSong (handleUpload (Some trackX) trackB (clearSession removal_scenario))
    = None
  ∧ currentSong (handleUpload None trackB removal_scenario) = Some trackB
  ∧ getUpNext (handleUpload None trackB idle_scenario)
    = [trackZ; trackX; trackY].
Proof.
  destruct (handleUpload_upNext (Some trackX) trackB removal_scenario)
    as (_ & Hloaded & _).
  destruct Hloaded as (Hc & _ & Hup); [by eexists|].
  destruct (handleUpload_upNext (Some trackX) trackB
              (clearSession removal_scenario)) as (_ & Hstale & _).
  destruct Hstale as (Hc0 & _); [by eexists|].
  destruct (handleUpload_upNext None trackB removal_scenario) as (_ & _ & Hover).
  destruct Hover as (Hc1 & _); [reflexivity|].
  destruct (handleUpload_upNext None trackB idle_scenario) as (_ & _ & Hidle).
  destruct Hidle as (_ & _ & Hup'); [reflexivity|].
  split; [exact Hc|]. split; [apply Hup; intros c [= <-]; discriminate|].
  split; [exact Hc0|]. split; [exact Hc1|].
  rewrite Hup' by reflexivity. reflexivity.
Defined.

(** ** The up-next list from one track to the next *)

(** With shuffle off, the up-next list starts with the Manual Queue and goes
    on with Library tracks in Library order, none of them skipped. *)
Theorem getUpNext_ordered_shape :
  ∀ st : State,
    isShuffled st = false →
    take (length (queue st)) (getUpNext st) = queue st
    ∧ drop (length (queue st)) (getUpNext st) `sublist_of` library st
    ∧ ∀ s, s ∈ drop (length (queue st)) (getUpNext st) →
           Song.id s ∉ skippedTracks st.
Proof.
  intros st Hs. destruct (upNext_library_part st Hs) as [Heq Hsub].
  split; [|split; [done|]].
  - unfold getUpNext. by rewrite Hs, take_app_length.
  - intros s. rewrite Heq. intros [Hu _]%list_elem_of_filter.
    unfold unskipped in Hu. by rewrite negb_True, bool_decide_spec in Hu.
Qed.

Lemma getUpNext_ordered_shape_witness :
  take 2 (getUpNext shuffle_scenario) = [trackA; trackB]
  ∧ drop 2 (getUpNext shuffle_scenario) `sublist_of` [trackX; trackY; trackZ].
Proof.
  destruct (getUpNext_ordered_shape shuffle_scenario) as (Ht & Hd & _);
    [reflexivity|].
  exact (conj Ht Hd).
Defined.

(** After a [playNext] that found the head of the up-next list, the list is
    its former tail when shuffle is on.  With shuffle off it is the rest of
    the Manual Queue followed by the unskipped Library tracks behind the
    track just loaded: auto-advance continues from the position of that
    track in the Library, not from where playback was before. *)
Theorem getUpNext_after_playNext :
  ∀ (st : State) (s : Song) (rest : list Song),
    getUpNext st = s :: rest →
    is_Some (currentSong st) ∨ library st ≠ [] →
    getUpNext (playNext st) =
      if isShuffled st then rest
      else tail (queue st) ++
           filter (λ x, Song.id x ∉ skippedTracks st)
             (tracksAfter (sameId s) (library st)).
Proof.
  intros st s rest Hup Hg.
  destruct (playNext_head st s rest Hup Hg) as [Hcur _].
  destruct (playNext_fields st) as (Hl & Hk & Hsh & _).
  destruct (isShuffled st) eqn:Hs.
  - unfold getUpNext in Hup |- *. rewrite Hsh. rewrite Hs in Hup.
    by destruct (playNext_shuffled_fields st s rest Hs Hup Hg) as (_ & -> & _).
  - rewrite getUpNext_ordered by by rewrite Hsh.
    unfold spec_orderedUpNext, spec_libraryAfterCurrent.
    rewrite Hcur, Hl, Hk. f_equal.
    unfold playNext. rewrite (playNext_unguarded st Hg), Hs.
    destruct (queue st) as [|q qs] eqn:Hq.
    + destruct (_ =? _); [by destruct (currentSong st)|].
      destruct (_ <? _); by destruct (currentSong st).
    + destruct (currentSong st); simpl; by rewrite Hq, slice_from_1.
Qed.

Lemma getUpNext_after_playNext_witness :
  getUpNext (mkState [trackX; trackY; trackZ] [trackZ] [] ∅ (Some trackX)
               false false [] true 0%Q) = [trackZ; trackY; trackZ]
  ∧ getUpNext (playNext (mkState [trackX; trackY; trackZ] [trackZ] [] ∅
                           (Some trackX) false false [] true 0%Q)) = [].
Proof.
  split; [reflexivity|].
  apply (getUpNext_after_playNext
           (mkState [trackX; trackY; trackZ] [trackZ] [] ∅ (Some trackX)
              false false [] true 0%Q) trackZ [trackY; trackZ]).
  - reflexivity.
  - left. eexists. reflexivity.
Defined.

(** The history law holds in either mode: from any reachable state, shuffled
    or not, [n] calls of [playNext] and then [n] calls of [playPrevious],
    each within three seconds and each finding a non-empty History, restore
    the Current Track. *)
Theorem history_LIFO_law_any_mode :
  ∀ (st : State) (n : nat) (ts : list Q),
    reachable st →
    length ts = n →
    previous_run_ok ts (playNext_times n st) →
    currentSong (playPrevious_at ts (playNext_times n st)) = currentSong st.
Proof.
  intros st n ts Hreach Hlen Hok.
  destruct (currentSong st) as [c|] eqn:Hc.
  - apply (next_previous_restores n st c ts Hc Hlen).
    by eapply previous_run_ok_times.
  - apply next_previous_from_idle; [done| |lia|done].
    by apply (reachable_history_inv _ st Hreach).
Qed.

Lemma history_LIFO_law_any_mode_witness :
  currentSong
    (playPrevious_at [1%Q; 2%Q]
       (playNext_times 2 (toggleShuffle (λ _, half) lifo_scenario)))
  = Some trackX.
Proof.
  apply (history_LIFO_law_any_mode (toggleShuffle (λ _, half) lifo_scenario)
           2 [1%Q; 2%Q]).
  - apply (reachable_run [ToggleShuffle (λ _, half)]). apply reachable_run_all.
  - reflexivity.
  - repeat split; discriminate.
Defined.

(** ** Reconciling the Manual Queue with what was played *)

Lemma playPrevious_keeps_track st :
  is_Some (currentSong st) → is_Some (currentSong (playPrevious st)).
Proof.
  intros [c Hc]. unfold playPrevious. rewrite Hc.
  destruct (pastRestartThreshold _); [by rewrite Hc|].
  destruct (Z.ltb_spec 0 (Z.of_nat (length (history st)))).
  - simpl. apply at_index_is_Some. lia.
  - destruct (Z.ltb_spec 0 (Z.of_nat (length (library st)))); [|by rewrite Hc].
    destruct (Z.ltb_spec 0 (findIndex (sameId c) (library st))) as [Hpos|];
      [|by rewrite Hc].
    simpl. apply at_index_is_Some.
    destruct (findIndex_cases (sameId c) (library st))
      as [(_ & Hf & _)|(n & Hf & Hn & _)]; lia.
Qed.

Lemma playNext_keeps_track st :
  is_Some (currentSong st) → is_Some (currentSong (playNext st)).
Proof.
  intros [c Hc]. pose proof (playNext_current_history st) as Hn.
  rewrite Hc in Hn. by destruct Hn.
Qed.

(** While shuffle is on a track is loaded: the control that switches shuffle
    on needs one, and whatever unloads the track switches shuffle off. *)
Lemma handle_shuffled_has_track e st :
  shuffle_control_rendered st e →
  (isShuffled st = true → is_Some (currentSong st)) →
  isShuffled (handle e st) = true → is_Some (currentSong (handle e st)).
Proof.
  intros Hgate Hinv. destruct e; cbn [handle].
  - destruct (playNext_fields st) as (_ & _ & -> & _).
    intros Hs. by apply playNext_keeps_track, Hinv.
  - destruct (playPrevious_fields st) as (_ & _ & _ & _ & -> & _).
    intros Hs. by apply playPrevious_keeps_track, Hinv.
  - unfold handleAddToQueue. by destruct (isShuffled st) eqn:Hs; simpl; rewrite ?Hs.
  - destruct (handleRemoveFromUpNext_shuffle_fields index st) as [-> _].
    by destruct (handleRemoveFromUpNext_current_history index st) as [-> _].
  - intros _. unfold toggleShuffle. by destruct (isShuffled st).
  - done.
  - done.
  - done.
  - done.
  - done.
  - unfold handleUpload. destruct captured; [done|]. intros _. by eexists.
  - done.
  - unfold handleSongEnd. destruct (_ && _); [done|].
    destruct (playNext_fields st) as (_ & _ & -> & _).
    intros Hs. by apply playNext_keeps_track, Hinv.
  - unfold handleAudioError. destruct (playNext_fields st) as (_ & _ & -> & _).
    intros Hs. by apply playNext_keeps_track, Hinv.
  - done.
Qed.

Lemma ui_reachable_shuffled_has_track st :
  ui_reachable st → isShuffled st = true → is_Some (currentSong st).
Proof.
  induction 1 as [|st e _ IH Hgate]; [done|by apply handle_shuffled_has_track].
Qed.

(** C2: in every state the component can be in with shuffle on and a
    non-empty Shuffled Queue, [playNext] makes the head of the Shuffled Queue
    the Current Track, removes that head from the Shuffled Queue, removes
    from the Manual Queue every entry carrying the same identifier -- none
    with that identifier is left and every other entry stays, in order -- and
    starts playing.  The Manual Queue loses the track as it becomes the
    Current Track in the other mode too: with shuffle off, when [playNext]
    loads the head of the Manual Queue, that head is gone from it. *)
Theorem playNext_shuffled_reconciles :
  ∀ (st : State) (s : Song) (rest : list Song),
    ui_reachable st →
    (isShuffled st = true →
     shuffledQueue st = s :: rest →
     currentSong (playNext st) = Some s
     ∧ shuffledQueue (playNext st) = rest
     ∧ queue (playNext st) = filter (λ x, Song.id x ≠ Song.id s) (queue st)
     ∧ (∀ x, x ∈ queue (playNext st) → Song.id x ≠ Song.id s)
     ∧ isPlaying (playNext st) = true)
    ∧ (isShuffled st = false →
       queue st = s :: rest →
       currentSong (playNext st) = Some s →
       queue (playNext st) = rest).
Proof.
  intros st s rest Hreach. split.
  - intros Hs Hq.
    assert (Hg : is_Some (currentSong st) ∨ library st ≠ [])
      by (left; by apply ui_reachable_shuffled_has_track).
    destruct (playNext_shuffled_fields st s rest Hs Hq Hg)
      as (_ & Hsq & Hcur & Hqueue & _).
    destruct (playNext_head st s rest) as [_ Hplay]; [|done|].
    { unfold getUpNext. by rewrite Hs. }
    split; [done|]. split; [done|]. split; [done|]. split; [|done].
    intros x. rewrite Hqueue. by intros [? _]%list_elem_of_filter.
  - intros Hs Hq Hcur. unfold playNext in *.
    destruct (negb (bool_decide (is_Some (currentSong st)))
              && (Z.of_nat (length (library st)) =? 0)) eqn:Hguard.
    + apply andb_true_iff in Hguard as [Hnone _].
      apply negb_true_iff, bool_decide_eq_false in Hnone.
      exfalso. apply Hnone. by eexists.
    + rewrite Hs, Hq. destruct (currentSong st); simpl; by rewrite Hq, slice_from_1.
Qed.

Lemma playNext_shuffled_reconciles_witness :
  shuffledQueue reconcile_scenario = [trackA; trackB]
  ∧ currentSong (playNext reconcile_scenario) = Some trackA
  ∧ shuffledQueue (playNext reconcile_scenario) = [trackB]
  ∧ queue (playNext reconcile_scenario) = [trackB].
Proof.
  assert (Hreach : ui_reachable reconcile_scenario).
  { unfold reconcile_scenario.
    apply reach_step; [|eexists; reflexivity].
    repeat (apply reach_step; [|exact I]). apply reach_init. }
  destruct (playNext_shuffled_reconciles reconcile_scenario trackA [trackB] Hreach)
    as [Hshuffled _].
  destruct Hshuffled as (Hc & Hsq & Hq & _); [reflexivity|reflexivity|].
  split; [reflexivity|]. split; [exact Hc|]. split; [exact Hsq|].
  rewrite Hq. reflexivity.
Defined.
